(** * useMediaControls: a shallow embedding of
    [packages/core/useMediaControls/index.ts] and the properties of its
    synchronisation logic.

    The controller is a closure over a set of reactive refs, a target
    reference to a media element and the caller's options.  Here the closure
    is a record [World]: the refs, the target, the heap of media elements the
    target may point to, and the bookkeeping of the two ignorable watches and
    of the nested text-track listeners.  Every function of the source becomes
    a function on [World]; the two functions that index into the native
    text-track list may throw and live in the small monad [Js].

    Embedded: the helpers (lines 180-204), the refs (221-234), the track
    operations (247-279), the picture-in-picture toggle (283-300), the source
    and track reconciliation effects (340-382, 407-438), the two ignorable
    watches (448-466), the fourteen listeners on the element (468-481) and
    the nested watch with its three listeners on the track list (490-500).
    The effect that copies scalar options to element attributes (303-334)
    and the callback of the watch on [volume] (396-402) act on the element
    attributes, kept beside the controller in [Page]; the teardown of the
    source listeners (385-391) is [unmounted_sources].  The release of the
    track-list listeners at teardown (503) is not embedded. *)

From Stdlib Require Import ZArith.
From stdpp Require Import base option list functions gmap strings.

Local Open Scope string_scope.
Local Open Scope list_scope.
Local Open Scope nat_scope.

(** ** Data model *)

(** [TextTrackMode] and [TextTrackKind] are the DOM string enumerations. *)
Inductive TextTrackMode := disabled | hidden | showing.

Inductive TextTrackKind := subtitles | captions | descriptions | chapters | metadata.

#[global] Instance TextTrackMode_eq_dec : EqDecision TextTrackMode.
Proof. solve_decision. Defined.

#[global] Instance TextTrackKind_eq_dec : EqDecision TextTrackKind.
Proof. solve_decision. Defined.

(** [interface UseMediaSource]: [type] is optional. *)
Record UseMediaSource := mkUseMediaSource {
  ums_src : string;
  ums_type : option string
}.

(** [interface UseMediaTextTrackSource]: [default] is optional. *)
Record UseMediaTextTrackSource := mkUseMediaTextTrackSource {
  tts_default : option bool;
  tts_kind : TextTrackKind;
  tts_label : string;
  tts_src : string;
  tts_srcLang : string
}.

(** The [src] option after [{...defaultOptions, ...options}] and [unref]:
    [string | UseMediaSource | UseMediaSource[]], or [undefined] when the
    caller passes the key with no value. *)
Inductive SrcOption :=
| SrcUndefined
| SrcString (s : string)
| SrcObject (o : UseMediaSource)
| SrcArray (l : list UseMediaSource).

(** A [<source>] child: its content attributes, and the event types on which
    [sourceErrorEvent.trigger] is registered. *)
Record HTMLSourceElement := mkSource {
  source_attributes : gmap string string;
  source_listeners : gset string
}.

(** A [<track>] child with the five IDL properties the controller writes. *)
Record HTMLTrackElement := mkTrack {
  track_default : bool;
  track_kind : TextTrackKind;
  track_label : string;
  track_src : string;
  track_srclang : string
}.

#[local] Set Warnings "-register-all".

(** The descendants of the media element: source and track elements are
    leaves, anything else (fallback content) is an element with children. *)
Inductive Node :=
| SourceNode (s : HTMLSourceElement)
| TrackNode (t : HTMLTrackElement)
| ElementNode (tag : string) (children : list Node).

(** The document handed to the controller; [pictureInPictureEnabled_in] is
    ['pictureInPictureEnabled' in document]. *)
Record Document := mkDocument {
  pictureInPictureEnabled_in : bool
}.

(** Locations of media elements: the target ref holds one of these. *)
Definition loc := nat.

(** ** DOM helpers *)

Definition is_source (n : Node) : bool :=
  match n with SourceNode _ => true | _ => false end.

Definition is_track (n : Node) : bool :=
  match n with TrackNode _ => true | _ => false end.

(** [el.querySelectorAll(sel).forEach(e => e.remove())]: every descendant
    matching [p] is detached, at any depth. *)
Fixpoint remove_all (p : Node → bool) (n : Node) : Node :=
  match n with
  | ElementNode tag children =>
      ElementNode tag (List.filter (λ c, negb (p c)) (map (remove_all p) children))
  | _ => n
  end.

Definition remove_descendants (p : Node → bool) (children : list Node) : list Node :=
  List.filter (λ c, negb (p c)) (map (remove_all p) children).

(** [document.createElement('source')], [setAttribute], [addEventListener]. *)
Definition createElement_source : HTMLSourceElement := mkSource ∅ ∅.

Definition setAttribute (name value : string) (s : HTMLSourceElement) : HTMLSourceElement :=
  mkSource (<[name := value]> (source_attributes s)) (source_listeners s).

Definition addEventListener (type : string) (s : HTMLSourceElement) : HTMLSourceElement :=
  mkSource (source_attributes s) ({[type]} ∪ source_listeners s).

(** [x || ''] on an optional string: [undefined] and [''] are both falsy. *)
Definition or_empty (x : option string) : string :=
  match x with
  | Some s => if decide (s = "") then "" else s
  | None => ""
  end.

(** [x || false] on an optional boolean. *)
Definition or_false (x : option bool) : bool :=
  match x with
  | Some b => b
  | None => false
  end.

(** Truthiness of the [src] option: [undefined] and [''] are falsy, objects
    and arrays (the empty array too) are truthy. *)
Definition truthy_src (src : SrcOption) : bool :=
  match src with
  | SrcUndefined => false
  | SrcString s => negb (bool_decide (s = ""))
  | SrcObject _ => true
  | SrcArray _ => true
  end.

(** Lines 349-360: merge the sources into an array. *)
Definition merge_sources (src : SrcOption) : list UseMediaSource :=
  match src with
  | SrcString s => [mkUseMediaSource s None]
  | SrcArray l => l
  | SrcObject o => [o]
  | SrcUndefined => []
  end.

(** Lines 369-378, the body of [sources.forEach] up to [appendChild]. *)
Definition new_source (s : UseMediaSource) : HTMLSourceElement :=
  let source := createElement_source in
  let source := setAttribute "src" (ums_src s) source in
  let source := setAttribute "type" (or_empty (ums_type s)) source in
  addEventListener "error" source.

(** Lines 425-431: all five properties of the fresh element are assigned. *)
Definition new_track (d : UseMediaTextTrackSource) : HTMLTrackElement :=
  mkTrack (or_false (tts_default d)) (tts_kind d) (tts_label d) (tts_src d) (tts_srcLang d).

(** [const supportsPictureInPicture = document && 'pictureInPictureEnabled' in document] *)
Definition supportsPictureInPicture (document : option Document) : bool :=
  match document with
  | Some d => pictureInPictureEnabled_in d
  | None => false
  end.

(** ** Promises of the picture-in-picture API *)

(** The two native requests [togglePictureInPicture] can issue. *)
Inductive PipRequest :=
| RequestPictureInPicture (el : loc)
| ExitPictureInPicture.

#[global] Instance PipRequest_eq_dec : EqDecision PipRequest.
Proof. solve_decision. Defined.

Inductive PromiseState := Pending | Fulfilled | Rejected.

(** What the environment does later: a native request settles. *)
Record Settlement := mkSettlement {
  settled_request : PipRequest;
  settled_fulfilled : bool
}.

(** The promise returned by [togglePictureInPicture] is settled only through
    [.then(resolve).catch(reject)] on the native request the executor chained
    it to; [chained = None] when the executor chained nothing. *)
Definition promise_step (chained : option PipRequest) (st : PromiseState) (ev : Settlement)
  : PromiseState :=
  match st, chained with
  | Pending, Some r =>
      if decide (r = settled_request ev)
      then (if settled_fulfilled ev then Fulfilled else Rejected)
      else Pending
  | _, _ => st
  end.

Definition promise_after (chained : option PipRequest) (evs : list Settlement) : PromiseState :=
  fold_left (promise_step chained) evs Pending.

(** ** Completions *)

(** A call either returns or throws the [TypeError] of a property access on
    [undefined]; the world keeps the effects that happened before the throw. *)
Inductive Completion (A : Type) :=
| Normal (a : A)
| Throw.

Arguments Normal {A} a.
Arguments Throw {A}.

(** ** Watches *)

(** The state of one deferred watch: the value it saw when it last ran, and
    for the current tick the number of changes of its ref and how many of
    them were made under [ignoreUpdates]. *)
Record WatchState (V : Type) := mkWatchState {
  ws_seen : V;
  ws_changes : nat;
  ws_ignored : nat
}.

Arguments mkWatchState {V} ws_seen ws_changes ws_ignored.
Arguments ws_seen {V} w.
Arguments ws_changes {V} w.
Arguments ws_ignored {V} w.

(** A write of [new] over [old]: a write of the value already held is no
    change and notifies nobody. *)
Definition note_change {V : Type} `{!EqDecision V} (old new : V) (ignored : bool)
  (ws : WatchState V) : WatchState V :=
  if decide (new = old) then ws
  else mkWatchState (ws_seen ws) (S (ws_changes ws))
         (if ignored then S (ws_ignored ws) else ws_ignored ws).

Section MediaControls.

(** JavaScript numbers used as playback quantities are kept abstract: the
    controller only stores, copies and compares them ([Object.is]). *)
Context {number : Type} `{!EqDecision number}.

(** [TextTrackCueList] objects are opaque to the controller. *)
Context {CueList : Type}.

(** A native [TextTrack] of [el.textTracks]. *)
Record TextTrack := mkTextTrack {
  tt_label : string;
  tt_kind : TextTrackKind;
  tt_language : string;
  tt_mode : TextTrackMode;
  tt_activeCues : option CueList;
  tt_cues : option CueList;
  tt_inBandMetadataTrackDispatchType : string
}.

(** [interface UseMediaTextTrack]; ids are array indices. *)
Record UseMediaTextTrack := mkUseMediaTextTrack {
  umt_id : Z;
  umt_label : string;
  umt_language : string;
  umt_mode : TextTrackMode;
  umt_kind : TextTrackKind;
  umt_inBandMetadataTrackDispatchType : string;
  umt_cues : option CueList;
  umt_activeCues : option CueList
}.

(** What the controller does to a media element, in order: the assignments to
    [el.currentTime] and the calls of [play], [pause] and [load]. *)
Inductive MediaCall :=
| SetCurrentTime (time : number)
| Play
| Pause
| Load.

(** The part of [HTMLMediaElement] the controller reads and writes.
    [el_calls] is a ghost log of the mutations listed in [MediaCall]. *)
Record HTMLMediaElement := mkElement {
  el_currentTime : number;
  el_duration : number;
  el_playbackRate : number;
  el_buffered : list (number * number);
  el_textTracks : list TextTrack;
  el_children : list Node;
  el_calls : list MediaCall
}.

(** The refs of the closure, by type. *)
Inductive NumRef := currentTime | duration | volume | rate.

Inductive BoolRef :=
| seeking | buffering | waiting | ended | playing | stalled | isPictureInPicture.

#[global] Instance NumRef_eq_dec : EqDecision NumRef.
Proof. solve_decision. Defined.

#[global] Instance BoolRef_eq_dec : EqDecision BoolRef.
Proof. solve_decision. Defined.

(** An assignment [r.value = v] to one of the refs. *)
Inductive Write :=
| WNum (r : NumRef) (v : number)
| WBool (r : BoolRef) (v : bool)
| WBuffered (v : list (number * number))
| WTracks (v : list UseMediaTextTrack)
| WSelectedTrack (v : Z).

(** The state of one controller.
    - [heap], [target]: the media elements and [unref(target)];
    - [nums], [bools], [buffered], [tracks], [selectedTrack]: the refs;
    - [ignoreCurrentTime], [ignorePlaying]: the suppression flags of the two
      ignorable watches;
    - [listeners]: the element on whose [textTracks] the nested watch has
      registered its three listeners ([None] while the watch is running);
    - [writes]: a ghost log of the assignments to refs. *)
Record World := mkWorld {
  heap : gmap loc HTMLMediaElement;
  target : option loc;
  nums : NumRef → number;
  bools : BoolRef → bool;
  buffered : list (number * number);
  tracks : list UseMediaTextTrack;
  selectedTrack : Z;
  ignoreCurrentTime : bool;
  ignorePlaying : bool;
  listeners : option loc;
  writes : list Write
}.

Definition set_heap (h : gmap loc HTMLMediaElement) (w : World) : World :=
  mkWorld h (target w) (nums w) (bools w) (buffered w) (tracks w)
    (selectedTrack w) (ignoreCurrentTime w) (ignorePlaying w) (listeners w) (writes w).

Definition set_ignoreCurrentTime (b : bool) (w : World) : World :=
  mkWorld (heap w) (target w) (nums w) (bools w) (buffered w) (tracks w)
    (selectedTrack w) b (ignorePlaying w) (listeners w) (writes w).

Definition set_ignorePlaying (b : bool) (w : World) : World :=
  mkWorld (heap w) (target w) (nums w) (bools w) (buffered w) (tracks w)
    (selectedTrack w) (ignoreCurrentTime w) b (listeners w) (writes w).

Definition set_listeners (l : option loc) (w : World) : World :=
  mkWorld (heap w) (target w) (nums w) (bools w) (buffered w) (tracks w)
    (selectedTrack w) (ignoreCurrentTime w) (ignorePlaying w) l (writes w).

(** [r.value = v] for each kind of ref; every assignment is logged. *)
Definition assign_num (r : NumRef) (v : number) (w : World) : World :=
  mkWorld (heap w) (target w) (<[r := v]> (nums w)) (bools w) (buffered w) (tracks w)
    (selectedTrack w) (ignoreCurrentTime w) (ignorePlaying w) (listeners w)
    (writes w ++ [WNum r v]).

Definition assign_bool (r : BoolRef) (v : bool) (w : World) : World :=
  mkWorld (heap w) (target w) (nums w) (<[r := v]> (bools w)) (buffered w) (tracks w)
    (selectedTrack w) (ignoreCurrentTime w) (ignorePlaying w) (listeners w)
    (writes w ++ [WBool r v]).

Definition assign_buffered (v : list (number * number)) (w : World) : World :=
  mkWorld (heap w) (target w) (nums w) (bools w) v (tracks w)
    (selectedTrack w) (ignoreCurrentTime w) (ignorePlaying w) (listeners w)
    (writes w ++ [WBuffered v]).

Definition assign_tracks (v : list UseMediaTextTrack) (w : World) : World :=
  mkWorld (heap w) (target w) (nums w) (bools w) (buffered w) v
    (selectedTrack w) (ignoreCurrentTime w) (ignorePlaying w) (listeners w)
    (writes w ++ [WTracks v]).

Definition assign_selectedTrack (v : Z) (w : World) : World :=
  mkWorld (heap w) (target w) (nums w) (bools w) (buffered w) (tracks w)
    v (ignoreCurrentTime w) (ignorePlaying w) (listeners w)
    (writes w ++ [WSelectedTrack v]).

(** [unref(target)] as the code tests it: the location, when the target holds
    one.  A reference always denotes a live object, so a target outside the
    heap does not arise; it is read as [null]. *)
Definition unref_target (w : World) : option loc :=
  match target w with
  | Some l => if decide (is_Some (heap w !! l)) then Some l else None
  | None => None
  end.

(** In-place update of the element at [l]. *)
Definition update_el (l : loc) (f : HTMLMediaElement → HTMLMediaElement) (w : World) : World :=
  set_heap (alter f l (heap w)) w.

(** Writes to the fields of an element. *)
Definition set_el_currentTime (time : number) (el : HTMLMediaElement) : HTMLMediaElement :=
  mkElement time (el_duration el) (el_playbackRate el) (el_buffered el)
    (el_textTracks el) (el_children el) (el_calls el ++ [SetCurrentTime time]).

Definition call (c : MediaCall) (el : HTMLMediaElement) : HTMLMediaElement :=
  mkElement (el_currentTime el) (el_duration el) (el_playbackRate el) (el_buffered el)
    (el_textTracks el) (el_children el) (el_calls el ++ [c]).

Definition set_el_textTracks (ts : list TextTrack) (el : HTMLMediaElement) : HTMLMediaElement :=
  mkElement (el_currentTime el) (el_duration el) (el_playbackRate el) (el_buffered el)
    ts (el_children el) (el_calls el).

Definition set_el_children (ns : list Node) (el : HTMLMediaElement) : HTMLMediaElement :=
  mkElement (el_currentTime el) (el_duration el) (el_playbackRate el) (el_buffered el)
    (el_textTracks el) ns (el_calls el).

(** [el.appendChild(n)] on the children.  How the browser makes the list of
    native text tracks follow the track children is not modelled: nothing is
    stated about [el_textTracks] after the children have changed. *)
Definition appendChild (n : Node) (el : HTMLMediaElement) : HTMLMediaElement :=
  set_el_children (el_children el ++ [n]) el.

Definition set_tt_mode (m : TextTrackMode) (t : TextTrack) : TextTrack :=
  mkTextTrack (tt_label t) (tt_kind t) (tt_language t) m (tt_activeCues t) (tt_cues t)
    (tt_inBandMetadataTrackDispatchType t).

(** ** Functions that may throw *)

(** [Js A]: a function of the controller that returns an [A] or throws. *)
Definition Js (A : Type) : Type := World → Completion A * World.

#[local] Instance Js_ret : MRet Js := λ A a w, (Normal a, w).

#[local] Instance Js_bind : MBind Js := λ A B f m w,
  match m w with
  | (Normal a, w') => f a w'
  | (Throw, w') => (Throw, w')
  end.

(** A statement that cannot throw. *)
Definition lift (f : World → World) : Js unit := λ w, (Normal (), f w).

(** [for (let i = start; i < start + count; ++i) body(i)] *)
Fixpoint for_range (start count : nat) (body : nat → Js unit) : Js unit :=
  match count with
  | O => mret ()
  | S count' => body start ;; for_range (S start) count' body
  end.

(** Lines 180-183. *)
Definition usingElRef (cb : loc → Js unit) : Js unit := λ w,
  match unref_target w with
  | Some el => cb el w
  | None => (Normal (), w)
  end.

(** [el.textTracks[id]]: [undefined] unless [id] is an index of the list. *)
Definition textTracks_at (el : HTMLMediaElement) (id : Z) : option TextTrack :=
  if decide (0 ≤ id)%Z then el_textTracks el !! Z.to_nat id else None.

(** [el.textTracks[id].mode = m] *)
Definition set_textTrack_mode (l : loc) (id : Z) (m : TextTrackMode) : Js unit := λ w,
  match heap w !! l with
  | Some el =>
      match textTracks_at el id with
      | Some t =>
          (Normal (),
           update_el l (λ el, set_el_textTracks (<[Z.to_nat id := set_tt_mode m t]> (el_textTracks el)) el) w)
      | None => (Throw, w)
      end
  | None => (Throw, w)
  end.

(** [el.textTracks.length] *)
Definition textTracks_length (l : loc) (w : World) : nat :=
  match heap w !! l with
  | Some el => length (el_textTracks el)
  | None => 0
  end.

(** The argument of [enableTrack] and [disableTrack]:
    [number | UseMediaTextTrack]. *)
Inductive TrackRef :=
| TrackNumber (n : Z)
| TrackObject (t : UseMediaTextTrack).

(** Truthiness of a track reference: the number 0 is falsy, every object is
    truthy. *)
Definition truthy_track (track : TrackRef) : bool :=
  match track with
  | TrackNumber n => negb (bool_decide (n = 0%Z))
  | TrackObject _ => true
  end.

(** [isNumber(track) ? track : track.id] *)
Definition track_id (track : TrackRef) : Z :=
  match track with
  | TrackNumber n => n
  | TrackObject t => umt_id t
  end.

(** Lines 254-255. *)
Definition disable_all (el : loc) : Js unit := λ w,
  for_range 0 (textTracks_length el w) (λ i, set_textTrack_mode el (Z.of_nat i) disabled) w.

(** Lines 247-260; [track = None] is the call without argument. *)
Definition disableTrack (track : option TrackRef) : Js unit :=
  usingElRef (λ el,
    match track with
    | Some t =>
        if truthy_track t
        then set_textTrack_mode el (track_id t) disabled
        else disable_all el
    | None => disable_all el
    end ;;
    lift (assign_selectedTrack (-1))).

(** Lines 269-279. *)
Definition enableTrack (track : TrackRef) (disableTracks : bool) : Js unit :=
  usingElRef (λ el,
    let id := track_id track in
    (if disableTracks then disableTrack None else mret ()) ;;
    set_textTrack_mode el id showing ;;
    lift (assign_selectedTrack id)).

(** Lines 200-204. *)
Definition tracksToArray (tracks : list TextTrack) : list UseMediaTextTrack :=
  imap (λ id t,
    mkUseMediaTextTrack (Z.of_nat id) (tt_label t) (tt_language t) (tt_mode t) (tt_kind t)
      (tt_inBandMetadataTrackDispatchType t) (tt_cues t) (tt_activeCues t)) tracks.

(** Lines 188-195, on a [TimeRanges] given as its list of [(start, end)]. *)
Definition timeRangeToArray (timeRanges : list (number * number)) : list (number * number) :=
  fold_left (λ ranges i,
    match timeRanges !! i with
    | Some r => ranges ++ [(r.1, r.2)]
    | None => ranges
    end) (seq 0 (length timeRanges)) [].

(** ** Picture in picture *)

(** Lines 283-300.  The result is the native request the returned promise is
    chained to, if any. *)
Definition togglePictureInPicture (document : option Document) (w : World) : option PipRequest :=
  match unref_target w with
  | Some el =>
      if supportsPictureInPicture document
      then
        if negb (bools w isPictureInPicture)
        then Some (RequestPictureInPicture el)
        else Some ExitPictureInPicture
      else None
  | None => None
  end.

(** ** Reconciliation effects *)

(** Lines 340-382. *)
Definition source_effect (document : option Document) (src : SrcOption) (w : World) : World :=
  match document with
  | None => w
  | Some _ =>
      match unref_target w with
      | None => w
      | Some el =>
          if negb (truthy_src src) then w
          else
            let sources := merge_sources src in
            let w := update_el el (λ e, set_el_children (remove_descendants is_source (el_children e)) e) w in
            let w := fold_left (λ w s, update_el el (appendChild (SourceNode (new_source s))) w) sources w in
            update_el el (call Load) w
      end
  end.

(** [xs.forEach((x, i) => body(i, x))], counting from [i]. *)
Fixpoint forEach_from {A : Type} (body : nat → A → World → World) (i : nat) (xs : list A) (w : World)
  : World :=
  match xs with
  | [] => w
  | x :: xs' => forEach_from body (S i) xs' (body i x w)
  end.

(** Lines 424-437, the body of [textTracks.forEach]. *)
Definition add_track (el : loc) (i : nat) (d : UseMediaTextTrackSource) (w : World) : World :=
  let track := new_track d in
  let w := if track_default track then assign_selectedTrack (Z.of_nat i) w else w in
  update_el el (appendChild (TrackNode track)) w.

(** Lines 407-438. *)
Definition track_effect (document : option Document)
  (textTracks : option (list UseMediaTextTrackSource)) (w : World) : World :=
  match document with
  | None => w
  | Some _ =>
      match textTracks, unref_target w with
      | Some tts, Some el =>
          if bool_decide (length tts = 0) then w
          else
            let w := update_el el (λ e, set_el_children (remove_descendants is_track (el_children e)) e) w in
            forEach_from (add_track el) 0 tts w
      | _, _ => w
      end
  end.

(** ** The bidirectional bindings *)

(** [unref(target)] dereferenced. *)
Definition target_el (w : World) : option HTMLMediaElement :=
  unref_target w ≫= λ l, heap w !! l.

(** Lines 448-454, the callback of the watch on [currentTime]. *)
Definition currentTime_cb (time : number) (w : World) : World :=
  match unref_target w with
  | None => w
  | Some el => update_el el (set_el_currentTime time) w
  end.

(** Lines 460-466, the callback of the watch on [playing]. *)
Definition playing_cb (isPlaying : bool) (w : World) : World :=
  match unref_target w with
  | None => w
  | Some el => update_el el (call (if isPlaying then Play else Pause)) w
  end.

(** Modelled from the spec: [ignorableWatch] of [@vueuse/shared] is not among
    the sources.  The spec describes it as an observable cell with change
    notification in a suppressible variant: a per-field flag (Idle or
    Suppressed) that the paired listener engages before its own write and
    lifts after it; the effect does not react to a write made while the flag
    is engaged.  [write_currentTime v] is [currentTime.value = v] with the
    watch flushed at once, the callback running inside the write; the
    deferred flush, where several writes or a write and an event share one
    tick, is [tk_flush] below. *)
Definition write_currentTime (v : number) (w : World) : World :=
  let changed := bool_decide (v ≠ nums w currentTime) in
  let w := assign_num currentTime v w in
  if changed && negb (ignoreCurrentTime w) then currentTime_cb v w else w.

(** Modelled from the spec: the [ignoreUpdates] of the ignorable watch on
    [currentTime] (see [write_currentTime]). *)
Definition ignoreCurrentTimeUpdates (updater : World → World) (w : World) : World :=
  set_ignoreCurrentTime false (updater (set_ignoreCurrentTime true w)).

(** Modelled from the spec: [playing.value = v] under the ignorable watch on
    [playing] (see [write_currentTime]). *)
Definition write_playing (v : bool) (w : World) : World :=
  let changed := bool_decide (v ≠ bools w playing) in
  let w := assign_bool playing v w in
  if changed && negb (ignorePlaying w) then playing_cb v w else w.

(** Modelled from the spec: the [ignoreUpdates] of the ignorable watch on
    [playing] (see [write_currentTime]). *)
Definition ignorePlayingUpdates (updater : World → World) (w : World) : World :=
  set_ignorePlaying false (updater (set_ignorePlaying true w)).

(** ** Event listeners *)

(** [f((unref(target))!)]: the handlers run only while the target is bound. *)
Definition with_target (f : HTMLMediaElement → World → World) (w : World) : World :=
  match target_el w with
  | Some el => f el w
  | None => w
  end.

(** Lines 468-481: the fourteen [useEventListener(target, type, handler)]
    calls, in source order. *)
Definition media_listeners : list (string * (World → World)) :=
  [ ("timeupdate",
      ignoreCurrentTimeUpdates (with_target (λ el, write_currentTime (el_currentTime el))));
    ("durationchange", with_target (λ el, assign_num duration (el_duration el)));
    ("progress", with_target (λ el, assign_buffered (timeRangeToArray (el_buffered el))));
    ("seeking", assign_bool seeking true);
    ("seeked", assign_bool seeking false);
    ("waiting", assign_bool waiting true);
    ("playing", assign_bool waiting false);
    ("ratechange", with_target (λ el, assign_num rate (el_playbackRate el)));
    ("stalled", assign_bool stalled true);
    ("ended", assign_bool ended true);
    ("pause", ignorePlayingUpdates (write_playing false));
    ("play", ignorePlayingUpdates (write_playing true));
    ("enterpictureinpicture", assign_bool isPictureInPicture true);
    ("leavepictureinpicture", assign_bool isPictureInPicture false) ].

(** The handlers registered for [type] run in order of registration. *)
Definition run_listeners (table : list (string * (World → World))) (type : string) (w : World)
  : World :=
  fold_left (λ w entry, if decide (entry.1 = type) then entry.2 w else w) table w.

(** Modelled from the spec: [useEventListener] of [../useEventListener] is
    not among the sources.  The spec describes it as an event-subscription
    primitive that attaches a native listener to the target and keeps all
    wiring inert while the target is absent: an event of the element [el]
    reaches the handlers when [el] is the element the target holds. *)
Definition dispatch (el : loc) (type : string) (w : World) : World :=
  if decide (unref_target w = Some el) then run_listeners media_listeners type w else w.

(** Lines 497-499, the handler shared by the three listeners on
    [el.textTracks]; [el] is the element captured when they were registered. *)
Definition rebuild_tracks (el : loc) (w : World) : World :=
  match heap w !! el with
  | Some e => assign_tracks (tracksToArray (el_textTracks e)) w
  | None => w
  end.

(** Lines 490-500, the callback of [watch([target], ...)]: on the first bound
    element it stops the watch and registers the three listeners. *)
Definition target_cb (w : World) : World :=
  match listeners w with
  | Some _ => w
  | None =>
      match unref_target w with
      | None => w
      | Some el => set_listeners (Some el) w
      end
  end.

Definition textTracks_listeners (el : loc) : list (string * (World → World)) :=
  [ ("addtrack", rebuild_tracks el);
    ("removetrack", rebuild_tracks el);
    ("change", rebuild_tracks el) ].

(** An event of the text-track list of the element [el]; it reaches the three
    handlers when they are registered on that list (see [dispatch]). *)
Definition dispatch_textTracks (el : loc) (type : string) (w : World) : World :=
  if decide (listeners w = Some el) then run_listeners (textTracks_listeners el) type w else w.

(** ** Observations used in the statements *)

(** The [<source>] and [<track>] children of an element, in document order. *)
Definition source_children (el : HTMLMediaElement) : list HTMLSourceElement :=
  omap (λ n, match n with SourceNode s => Some s | _ => None end) (el_children el).

Definition track_children (el : HTMLMediaElement) : list HTMLTrackElement :=
  omap (λ n, match n with TrackNode t => Some t | _ => None end) (el_children el).

(** The url and codec-type attributes of a source child. *)
Definition source_url_type (s : HTMLSourceElement) : option string * option string :=
  (source_attributes s !! "src", source_attributes s !! "type").

(** The positions of the descriptors whose default flag is set, ascending. *)
Definition default_positions (tts : list UseMediaTextTrackSource) : list nat :=
  omap (λ p, if or_false (tts_default p.2) then Some p.1 else None)
    (zip (seq 0 (length tts)) tts).

(** The values assigned to the boolean ref [r], oldest first. *)
Definition writes_to_bool (r : BoolRef) (ws : list Write) : list bool :=
  omap (λ wr, match wr with
              | WBool r' v => if decide (r' = r) then Some v else None
              | _ => None
              end) ws.

(** ** Runs of the controller *)

(** Everything that makes the controller act: native events of an element
    and of its text-track list, caller writes to the two bidirectional refs,
    the two track operations, a run of either reconciliation effect, and the
    callback of the watch on the target. *)
Inductive Op :=
| OpEvent (el : loc) (type : string)
| OpTextTracksEvent (el : loc) (type : string)
| OpWriteCurrentTime (v : number)
| OpWritePlaying (v : bool)
| OpEnableTrack (track : TrackRef) (disableTracks : bool)
| OpDisableTrack (track : option TrackRef)
| OpSourceEffect (document : option Document) (src : SrcOption)
| OpTrackEffect (document : option Document) (textTracks : option (list UseMediaTextTrackSource))
| OpTargetCb.

Definition step (w : World) (op : Op) : World :=
  match op with
  | OpEvent el type => dispatch el type w
  | OpTextTracksEvent el type => dispatch_textTracks el type w
  | OpWriteCurrentTime v => write_currentTime v w
  | OpWritePlaying v => write_playing v w
  | OpEnableTrack track disableTracks => (enableTrack track disableTracks w).2
  | OpDisableTrack track => (disableTrack track w).2
  | OpSourceEffect document src => source_effect document src w
  | OpTrackEffect document textTracks => track_effect document textTracks w
  | OpTargetCb => target_cb w
  end.

Definition run (ops : list Op) (w : World) : World := fold_left step ops w.

(** [f] neither changes the boolean ref [r] nor assigns to it. *)
Definition frames (r : BoolRef) (f : World → World) : Prop :=
  ∀ w, bools (f w) r = bools w r ∧
       writes_to_bool r (writes (f w)) = writes_to_bool r (writes w).



(** ** The initial state and sample states *)

(** Lines 221-234: the refs as [useMediaControls] creates them, for a given
    heap and target; [zero] and [one] are the numbers 0 and 1. *)
Definition useMediaControls (zero one : number) (h : gmap loc HTMLMediaElement)
  (t : option loc) : World :=
  mkWorld h t
    (λ r, match r with currentTime => zero | duration => zero | volume => one | rate => one end)
    (λ _, false) [] [] (-1) false false None [].

Definition sample_track (label language : string) (mode : TextTrackMode) : TextTrack :=
  mkTextTrack label subtitles language mode None None "".

(** A video element with three text tracks, an old source child, an old track
    child and fallback content that holds one more source. *)
Definition sample_element (zero : number) : HTMLMediaElement :=
  mkElement zero zero zero []
    [ sample_track "EN" "en" showing; sample_track "FR" "fr" showing;
      sample_track "DE" "de" hidden ]
    [ SourceNode (mkSource {["src" := "old.mp4"]} ∅);
      TrackNode (mkTrack true captions "old" "old.vtt" "en");
      ElementNode "p" [SourceNode (mkSource {["src" := "nested.mp4"]} ∅)] ]
    [].

Definition sample_bound (zero one : number) : World :=
  useMediaControls zero one {[ 0 := sample_element zero ]} (Some 0).

Definition sample_unbound (zero one : number) : World :=
  useMediaControls zero one {[ 0 := sample_element zero ]} None.

(** The two descriptors of the spec's track example. *)
Definition sample_tracks : list UseMediaTextTrackSource :=
  [ mkUseMediaTextTrackSource (Some false) subtitles "EN" "en.vtt" "en";
    mkUseMediaTextTrackSource (Some true) subtitles "FR" "fr.vtt" "fr" ].

(** The two descriptors of the spec's source example. *)
Definition sample_sources : list UseMediaSource :=
  [ mkUseMediaSource "a.mp4" (Some "video/mp4");
    mkUseMediaSource "a.ogv" (Some "video/ogg") ].

(** The two suppression flags; both watches are idle when neither is set. *)
Definition flags (w : World) : bool * bool := (ignoreCurrentTime w, ignorePlaying w).

Definition idle (w : World) : Prop := flags w = (false, false).

(** ** Rebinding the target *)

(** [target.value = t]: the caller binds, swaps or clears the target ref.
    What the controller does in reaction are steps of their own. *)
Definition set_target (t : option loc) (w : World) : World :=
  mkWorld (heap w) t (nums w) (bools w) (buffered w) (tracks w)
    (selectedTrack w) (ignoreCurrentTime w) (ignorePlaying w) (listeners w) (writes w).

(** ** Which step may assign which boolean ref *)

(** The event types whose listeners (lines 468-481) assign the ref [r]. *)
Definition bool_ref_events (r : BoolRef) : list string :=
  match r with
  | seeking => ["seeking"; "seeked"]
  | buffering => []
  | waiting => ["waiting"; "playing"]
  | ended => ["ended"]
  | playing => ["pause"; "play"]
  | stalled => ["stalled"]
  | isPictureInPicture => ["enterpictureinpicture"; "leavepictureinpicture"]
  end.

Definition may_assign (op : Op) (r : BoolRef) : bool :=
  match op with
  | OpEvent _ type => bool_decide (type ∈ bool_ref_events r)
  | OpWritePlaying _ => bool_decide (r = playing)
  | _ => false
  end.

(** The value the listener of an event type assigns to its boolean ref:
    [true] for the six types listed, [false] for the others. *)
Definition event_assigns (type : string) : bool :=
  bool_decide (type ∈ ["seeking"; "waiting"; "stalled"; "ended"; "play";
                        "enterpictureinpicture"]).

(** ** Turns of the event loop *)

(** One tick in which the caller assigns the target, in order, the values
    [ts].  [watch([target], ...)] (line 490) is a [watch] of vue-demi with no
    options: it is not immediate, so its callback does not run for the
    target the controller was created with, and it is batched, so the
    callback runs at the flush that ends the tick, once, and only when the
    target then differs from the one the tick started with. *)
Definition rebind_tick (ts : list (option loc)) (w : World) : World :=
  let w' := fold_left (λ w t, set_target t w) ts w in
  if decide (target w' = target w) then w' else target_cb w'.

(** What happens to a controller over its life: the caller rebinds the
    target in some tick, or the controller takes a step. *)
Inductive Turn :=
| TurnRebind (ts : list (option loc))
| TurnStep (op : Op).

Definition live_one (w : World) (turn : Turn) : World :=
  match turn with
  | TurnRebind ts => rebind_tick ts w
  | TurnStep op => step w op
  end.

Definition live (turns : list Turn) (w : World) : World := fold_left live_one turns w.

(** The steps other than a run of the target watch's callback. *)
Definition not_target_cb (op : Op) : bool :=
  match op with
  | OpTargetCb => false
  | _ => true
  end.

(** ** Descendants and defaults *)

(** Whether [n] or one of its descendants matches [p]: what
    [querySelectorAll] would find in the subtree, [n] included. *)
Fixpoint has_match (p : Node → bool) (n : Node) : bool :=
  p n ||
  match n with
  | ElementNode _ children => existsb (has_match p) children
  | _ => false
  end.

(** Lines 206-209: [defaultOptions], the values [src] and [tracks] take when
    the caller's options do not have the key. *)
Definition defaultOptions_src : SrcOption := SrcString "".

Definition defaultOptions_tracks : list UseMediaTextTrackSource := [].

(** ** Scalar options and element attributes *)

(** The [preload] option: ['auto' | 'metadata' | 'none']. *)
Inductive Preload := preload_auto | preload_metadata | preload_none.

Definition preload_string (p : Preload) : string :=
  match p with
  | preload_auto => "auto"
  | preload_metadata => "metadata"
  | preload_none => "none"
  end.

(** The scalar options after [unref]: [None] is [undefined]. *)
Record ScalarOptions := mkScalarOptions {
  opt_loop : option bool;
  opt_controls : option bool;
  opt_muted : option bool;
  opt_preload : option Preload;
  opt_autoplay : option bool;
  opt_poster : option string;
  opt_playsinline : option bool;
  opt_autoPictureInPicture : option bool
}.

(** The attributes of a media element that the options effect and the watch
    on [volume] assign. *)
Record MediaAttributes := mkAttributes {
  at_loop : bool;
  at_controls : bool;
  at_muted : bool;
  at_preload : string;
  at_autoplay : bool;
  at_poster : string;
  at_playsInline : bool;
  at_autoPictureInPicture : bool;
  at_volume : number
}.

Definition set_at_loop (v : bool) (a : MediaAttributes) : MediaAttributes :=
  mkAttributes v (at_controls a) (at_muted a) (at_preload a) (at_autoplay a) (at_poster a)
    (at_playsInline a) (at_autoPictureInPicture a) (at_volume a).

Definition set_at_controls (v : bool) (a : MediaAttributes) : MediaAttributes :=
  mkAttributes (at_loop a) v (at_muted a) (at_preload a) (at_autoplay a) (at_poster a)
    (at_playsInline a) (at_autoPictureInPicture a) (at_volume a).

Definition set_at_muted (v : bool) (a : MediaAttributes) : MediaAttributes :=
  mkAttributes (at_loop a) (at_controls a) v (at_preload a) (at_autoplay a) (at_poster a)
    (at_playsInline a) (at_autoPictureInPicture a) (at_volume a).

Definition set_at_preload (v : Preload) (a : MediaAttributes) : MediaAttributes :=
  mkAttributes (at_loop a) (at_controls a) (at_muted a) (preload_string v) (at_autoplay a)
    (at_poster a) (at_playsInline a) (at_autoPictureInPicture a) (at_volume a).

Definition set_at_autoplay (v : bool) (a : MediaAttributes) : MediaAttributes :=
  mkAttributes (at_loop a) (at_controls a) (at_muted a) (at_preload a) v (at_poster a)
    (at_playsInline a) (at_autoPictureInPicture a) (at_volume a).

Definition set_at_poster (v : string) (a : MediaAttributes) : MediaAttributes :=
  mkAttributes (at_loop a) (at_controls a) (at_muted a) (at_preload a) (at_autoplay a) v
    (at_playsInline a) (at_autoPictureInPicture a) (at_volume a).

Definition set_at_playsInline (v : bool) (a : MediaAttributes) : MediaAttributes :=
  mkAttributes (at_loop a) (at_controls a) (at_muted a) (at_preload a) (at_autoplay a)
    (at_poster a) v (at_autoPictureInPicture a) (at_volume a).

Definition set_at_autoPictureInPicture (v : bool) (a : MediaAttributes) : MediaAttributes :=
  mkAttributes (at_loop a) (at_controls a) (at_muted a) (at_preload a) (at_autoplay a)
    (at_poster a) (at_playsInline a) v (at_volume a).

Definition set_at_volume (v : number) (a : MediaAttributes) : MediaAttributes :=
  mkAttributes (at_loop a) (at_controls a) (at_muted a) (at_preload a) (at_autoplay a)
    (at_poster a) (at_playsInline a) (at_autoPictureInPicture a) v.

(** [if (x !== undefined) el.x = x] *)
Definition assign_if {A : Type} (x : option A) (set : A → MediaAttributes → MediaAttributes)
  (a : MediaAttributes) : MediaAttributes :=
  match x with
  | Some v => set v a
  | None => a
  end.

(** Lines 308-333, the assignments of the options effect to the element. *)
Definition apply_options (o : ScalarOptions) (vol : number) (a : MediaAttributes)
  : MediaAttributes :=
  let a := assign_if (opt_loop o) set_at_loop a in
  let a := assign_if (opt_controls o) set_at_controls a in
  let a := assign_if (opt_muted o) set_at_muted a in
  let a := assign_if (opt_preload o) set_at_preload a in
  let a := assign_if (opt_autoplay o) set_at_autoplay a in
  let a := assign_if (opt_poster o) set_at_poster a in
  let a := assign_if (opt_playsinline o) set_at_playsInline a in
  let a := assign_if (opt_autoPictureInPicture o) set_at_autoPictureInPicture a in
  set_at_volume vol a.

(** The controller together with the attributes of the media elements. *)
Record Page := mkPage {
  page_world : World;
  page_attributes : loc → MediaAttributes
}.

(** Lines 303-334. *)
Definition options_effect (o : ScalarOptions) (pg : Page) : Page :=
  match unref_target (page_world pg) with
  | None => pg
  | Some el =>
      mkPage (page_world pg)
        (<[el := apply_options o (nums (page_world pg) volume) (page_attributes pg el)]>
           (page_attributes pg))
  end.

(** Lines 396-402, the callback of the watch on [volume]. *)
Definition volume_cb (vol : number) (pg : Page) : Page :=
  match unref_target (page_world pg) with
  | None => pg
  | Some el =>
      mkPage (page_world pg)
        (<[el := set_at_volume vol (page_attributes pg el)]> (page_attributes pg))
  end.

(** Options given later win field by field; an undefined field keeps what an
    earlier run assigned. *)
Definition later_options (o1 o2 : ScalarOptions) : ScalarOptions :=
  mkScalarOptions
    (from_option Some (opt_loop o1) (opt_loop o2))
    (from_option Some (opt_controls o1) (opt_controls o2))
    (from_option Some (opt_muted o1) (opt_muted o2))
    (from_option Some (opt_preload o1) (opt_preload o2))
    (from_option Some (opt_autoplay o1) (opt_autoplay o2))
    (from_option Some (opt_poster o1) (opt_poster o2))
    (from_option Some (opt_playsinline o1) (opt_playsinline o2))
    (from_option Some (opt_autoPictureInPicture o1) (opt_autoPictureInPicture o2)).

(** ** Teardown of the source listeners *)

Definition removeEventListener (type : string) (s : HTMLSourceElement) : HTMLSourceElement :=
  mkSource (source_attributes s) (source_listeners s ∖ {[type]}).

(** [e.removeEventListener('error', sourceErrorEvent.trigger)] for every
    source element in the subtree of [n]. *)
Fixpoint release_sources (n : Node) : Node :=
  match n with
  | SourceNode s => SourceNode (removeEventListener "error" s)
  | TrackNode t => TrackNode t
  | ElementNode tag children => ElementNode tag (map release_sources children)
  end.

(** Lines 385-391, the first [tryOnUnmounted] callback: the listeners are
    removed, the nodes stay. *)
Definition unmounted_sources (w : World) : World :=
  match unref_target w with
  | None => w
  | Some el => update_el el (λ e, set_el_children (map release_sources (el_children e)) e) w
  end.

(** ** Native picture-in-picture calls *)






(** ** Ticks: the two ignorable watches with their deferred flush *)

(** The controller with the state of its two ignorable watches. *)
Record Ticking := mkTicking {
  tk_world : World;
  tk_currentTime : WatchState number;
  tk_playing : WatchState bool
}.

(** A controller whose watches have seen the current values. *)
Definition tk_start (w : World) : Ticking :=
  mkTicking w (mkWatchState (nums w currentTime) 0 0) (mkWatchState (bools w playing) 0 0).

Definition in_sync (t : Ticking) : Prop :=
  tk_currentTime t = mkWatchState (nums (tk_world t) currentTime) 0 0 ∧
  tk_playing t = mkWatchState (bools (tk_world t) playing) 0 0.

(** Modelled from the spec: [ignorableWatch] of [@vueuse/shared] is not among
    the sources.  Lines 448 and 460 pass it no [flush] option, so the watch
    is deferred: a write only assigns the ref and, when it changes the
    value, is counted; the callback runs at the flush that ends the tick.
    [tk_write_currentTime v] is the caller's [currentTime.value = v]. *)
Definition tk_write_currentTime (v : number) (t : Ticking) : Ticking :=
  mkTicking (assign_num currentTime v (tk_world t))
    (note_change (nums (tk_world t) currentTime) v false (tk_currentTime t))
    (tk_playing t).


(** Modelled from the spec: a native event of the element [el] in the
    deferred reading.  The listeners of lines 468-481 run as in [dispatch];
    the only writes they make to [currentTime] and [playing] are the ones
    wrapped in [ignoreUpdates] (lines 468, 478, 479), which assign the ref
    and run no callback, so a change of either ref across the event is
    counted as made under suppression. *)
Definition tk_dispatch (el : loc) (type : string) (t : Ticking) : Ticking :=
  let w' := dispatch el type (tk_world t) in
  mkTicking w'
    (note_change (nums (tk_world t) currentTime) (nums w' currentTime) true (tk_currentTime t))
    (note_change (bools (tk_world t) playing) (bools w' playing) true (tk_playing t)).

(** Modelled from the spec: the flush of one ignorable watch.  The spec (4.5)
    has the suppression engaged before the listener's write and lifted only
    after that write's propagation completes, also when several writes are
    queued: the callback is skipped when every change counted since it last
    ran was made under suppression.  It runs at most once per tick, with the
    value the ref holds at the flush, and only when that differs from the
    value the watch saw last; a flush that finds the value unchanged runs
    nothing and resets nothing. *)
Definition flush_watch {V : Type} `{!EqDecision V} (current : V) (cb : V → World → World)
  (ws : WatchState V) (w : World) : World * WatchState V :=
  if decide (ws_changes ws = 0) then (w, ws)
  else if decide (current = ws_seen ws) then (w, ws)
  else
    let skip := bool_decide (0 < ws_ignored ws) && bool_decide (ws_ignored ws = ws_changes ws) in
    (if skip then w else cb current w, mkWatchState current 0 0).

(** The flush that ends a tick: both watches, with the callbacks of lines
    448-454 and 460-466. *)
Definition tk_flush (t : Ticking) : Ticking :=
  let c := flush_watch (nums (tk_world t) currentTime) currentTime_cb
             (tk_currentTime t) (tk_world t) in
  let p := flush_watch (bools c.1 playing) playing_cb (tk_playing t) c.1 in
  mkTicking p.1 c.2 p.2.

(** ** Properties *)

(** *** Basic facts about the target *)

Lemma unref_target_bound (w : World) (l : loc) (el : HTMLMediaElement) :
  target w = Some l → heap w !! l = Some el → unref_target w = Some l.
Proof.
  intros Ht Hh. unfold unref_target. rewrite Ht.
  case_decide as Hs; [done|]. destruct Hs. by exists el.
Qed.

Lemma unref_target_unbound (w : World) :
  target w = None → unref_target w = None.
Proof. intros Ht. unfold unref_target. by rewrite Ht. Qed.

Lemma target_el_bound (w : World) (l : loc) (el : HTMLMediaElement) :
  target w = Some l → heap w !! l = Some el → target_el w = Some el.
Proof.
  intros Ht Hh. unfold target_el.
  rewrite (unref_target_bound w l el Ht Hh). done.
Qed.

(** *** Picture in picture *)

Lemma promise_after_unchained (evs : list Settlement) :
  promise_after None evs = Pending.
Proof.
  unfold promise_after. induction evs as [|ev evs IH]; [done|]. exact IH.
Qed.

(** C10: with no element bound, the promise returned by
    [togglePictureInPicture()] stays pending whatever the native requests do
    later, also when picture in picture is supported. *)
Theorem togglePictureInPicture_unbound_never_settles
  (document : option Document) (w : World) (evs : list Settlement) :
  target w = None →
  promise_after (togglePictureInPicture document w) evs = Pending.
Proof.
  intros Ht. unfold togglePictureInPicture.
  rewrite (unref_target_unbound w Ht). apply promise_after_unchained.
Qed.

(** C4: when the support flag is false, the promise returned by
    [togglePictureInPicture()] stays pending for every call: whatever the
    state of the controller and whatever the native requests do later. *)
Theorem togglePictureInPicture_unsupported_never_settles
  (document : option Document) (w : World) (evs : list Settlement) :
  supportsPictureInPicture document = false →
  promise_after (togglePictureInPicture document w) evs = Pending.
Proof.
  intros Hs. unfold togglePictureInPicture. rewrite Hs.
  destruct (unref_target w); apply promise_after_unchained.
Qed.

(** With support and a bound element the promise mirrors the native request:
    the two theorems above are not about a promise that can never settle. *)
Lemma togglePictureInPicture_supported_mirrors
  (d : Document) (w : World) (l : loc) (el : HTMLMediaElement) (ok : bool) :
  pictureInPictureEnabled_in d = true →
  target w = Some l → heap w !! l = Some el →
  bools w isPictureInPicture = false →
  togglePictureInPicture (Some d) w = Some (RequestPictureInPicture l) ∧
  promise_after (togglePictureInPicture (Some d) w) [mkSettlement (RequestPictureInPicture l) ok]
    = if ok then Fulfilled else Rejected.
Proof.
  intros Hd Ht Hh Hp. unfold togglePictureInPicture. simpl.
  rewrite (unref_target_bound w l el Ht Hh), Hd, Hp. simpl.
  split; [done|]. unfold promise_after. simpl.
  case_decide; [|done]. by destruct ok.
Qed.

(** *** Source reconciliation *)

(** C6: with a falsy [src] the source reconciliation effect returns before
    it touches anything: the world, and with it every element, its children
    and its log of [load()] calls, is the same afterwards. *)
Theorem source_effect_falsy_src_untouched
  (document : option Document) (src : SrcOption) (w : World) :
  truthy_src src = false →
  source_effect document src w = w.
Proof.
  intros Hf. unfold source_effect. rewrite Hf. simpl.
  destruct document; [|done]. by destruct (unref_target w).
Qed.

Lemma update_el_insert (w : World) (l : loc) (f : HTMLMediaElement → HTMLMediaElement)
  (el : HTMLMediaElement) :
  heap w !! l = Some el →
  update_el l f w = set_heap (<[l := f el]> (heap w)) w.
Proof.
  intros Hh. unfold update_el. f_equal.
  apply map_eq. intros i. rewrite lookup_alter, lookup_insert.
  case_decide; subst; [by rewrite Hh|done].
Qed.

Lemma update_el_set_heap (w : World) (h : gmap loc HTMLMediaElement) (l : loc)
  (f : HTMLMediaElement → HTMLMediaElement) (el : HTMLMediaElement) :
  update_el l f (set_heap (<[l := el]> h) w) = set_heap (<[l := f el]> h) w.
Proof.
  rewrite (update_el_insert _ l f el); simpl; [|by rewrite lookup_insert_eq].
  unfold set_heap. simpl. by rewrite insert_insert_eq.
Qed.

Lemma fold_update_el {A : Type} (F : A → HTMLMediaElement → HTMLMediaElement)
  (xs : list A) (w : World) (h : gmap loc HTMLMediaElement) (l : loc) (el : HTMLMediaElement) :
  fold_left (λ w x, update_el l (F x) w) xs (set_heap (<[l := el]> h) w)
  = set_heap (<[l := fold_left (λ e x, F x e) xs el]> h) w.
Proof.
  revert el. induction xs as [|x xs IH]; intros el; simpl; [done|].
  rewrite update_el_set_heap. apply IH.
Qed.

Lemma fold_appendChild_children {A : Type} (mk : A → Node) (xs : list A) (el : HTMLMediaElement) :
  el_children (fold_left (λ e x, appendChild (mk x) e) xs el) = el_children el ++ map mk xs.
Proof.
  revert el. induction xs as [|x xs IH]; intros el; simpl.
  - by rewrite app_nil_r.
  - rewrite IH. simpl. by rewrite <- app_assoc.
Qed.

Lemma fold_appendChild_calls {A : Type} (mk : A → Node) (xs : list A) (el : HTMLMediaElement) :
  el_calls (fold_left (λ e x, appendChild (mk x) e) xs el) = el_calls el.
Proof.
  revert el. induction xs as [|x xs IH]; intros el; simpl; [done|]. by rewrite IH.
Qed.

Lemma omap_source_removed (ns : list Node) :
  omap (λ n, match n with SourceNode s => Some s | _ => None end)
    (remove_descendants is_source ns) = [].
Proof.
  unfold remove_descendants.
  induction ns as [|n ns IH]; simpl; [done|].
  destruct n as [s|t|tag ch]; simpl; done.
Qed.

Lemma omap_source_new (xs : list UseMediaSource) :
  omap (λ n, match n with SourceNode s => Some s | _ => None end)
    (map (λ x, SourceNode (new_source x)) xs) = map new_source xs.
Proof.
  induction xs as [|x xs IH]; [done|].
  change (new_source x :: omap (λ n, match n with SourceNode s => Some s | _ => None end)
            (map (λ x, SourceNode (new_source x)) xs) = new_source x :: map new_source xs).
  by rewrite IH.
Qed.

(** The effect on a bound element with a truthy [src], in closed form. *)
Lemma source_effect_bound (d : Document) (src : SrcOption) (w : World) (l : loc)
  (el : HTMLMediaElement) :
  target w = Some l → heap w !! l = Some el → truthy_src src = true →
  source_effect (Some d) src w
  = set_heap (<[l := call Load
        (fold_left (λ e s, appendChild (SourceNode (new_source s)) e) (merge_sources src)
           (set_el_children (remove_descendants is_source (el_children el)) el))]> (heap w)) w.
Proof.
  intros Ht Hh Hs. unfold source_effect.
  rewrite (unref_target_bound w l el Ht Hh), Hs. simpl.
  rewrite (update_el_insert w l _ el Hh).
  rewrite (fold_update_el (λ s, appendChild (SourceNode (new_source s)))).
  by rewrite update_el_set_heap.
Qed.

Lemma new_source_url_type (s : UseMediaSource) :
  source_url_type (new_source s) = (Some (ums_src s), Some (or_empty (ums_type s))).
Proof.
  unfold source_url_type, new_source, addEventListener, setAttribute. simpl.
  rewrite lookup_insert_ne by done. by rewrite !lookup_insert_eq.
Qed.

(** C5 (amended): on a bound element with a creation context and a truthy
    [src] (a non-empty string, a descriptor or a list), one run of the source
    reconciliation leaves exactly one source child per entry of the merged
    list, in list order, each with the entry's url and its codec type (the
    empty string when the entry has none), and calls [load()] exactly once;
    a string gives the single entry with that url and the empty codec type,
    a list is used as it is. *)
Theorem source_effect_truthy_src
  (d : Document) (src : SrcOption) (w : World) (l : loc) (el : HTMLMediaElement) :
  target w = Some l → heap w !! l = Some el → truthy_src src = true →
  ∃ el',
    heap (source_effect (Some d) src w) !! l = Some el' ∧
    map source_url_type (source_children el')
      = map (λ s, (Some (ums_src s), Some (or_empty (ums_type s)))) (merge_sources src) ∧
    map source_listeners (source_children el') = map (λ _, {["error"]}) (merge_sources src) ∧
    el_calls el' = el_calls el ++ [Load] ∧
    match src with
    | SrcString s => map source_url_type (source_children el') = [(Some s, Some "")]
    | SrcArray srcs => length (source_children el') = length srcs
    | _ => True
    end.
Proof.
  intros Ht Hh Hs. eexists. split.
  { rewrite (source_effect_bound d src w l el Ht Hh Hs). simpl. apply lookup_insert_eq. }
  assert (Hch : source_children
    (call Load (fold_left (λ e s, appendChild (SourceNode (new_source s)) e) (merge_sources src)
       (set_el_children (remove_descendants is_source (el_children el)) el)))
    = map new_source (merge_sources src)).
  { unfold source_children. simpl.
    rewrite (fold_appendChild_children (λ s, SourceNode (new_source s))). simpl.
    rewrite omap_app, omap_source_removed, omap_source_new. done. }
  rewrite Hch. repeat split.
  - rewrite map_map. apply map_ext. intros s. apply new_source_url_type.
  - rewrite map_map. apply map_ext. intros s.
    unfold new_source, addEventListener. simpl. set_solver.
  - simpl. by rewrite (fold_appendChild_calls (λ s, SourceNode (new_source s))).
  - destruct src as [|s|o|srcs]; [done| |done|].
    + cbn [merge_sources List.map]. by rewrite new_source_url_type.
    + cbn [merge_sources]. by rewrite length_map.
Qed.

(** *** Track reconciliation *)

(** The positions of the default descriptors when counting starts at [i]. *)
Lemma default_positions_cons (i : nat) (d : UseMediaTextTrackSource)
  (tts : list UseMediaTextTrackSource) :
  omap (λ p : nat * UseMediaTextTrackSource, if or_false (tts_default p.2) then Some p.1 else None)
    (zip (seq i (length (d :: tts))) (d :: tts))
  = (if or_false (tts_default d) then [i] else []) ++
    omap (λ p : nat * UseMediaTextTrackSource, if or_false (tts_default p.2) then Some p.1 else None)
      (zip (seq (S i) (length tts)) tts).
Proof. simpl. by destruct (or_false (tts_default d)). Qed.

Lemma forEach_add_track_heap (l : loc) (tts : list UseMediaTextTrackSource) (i : nat)
  (w : World) (el : HTMLMediaElement) :
  heap w !! l = Some el →
  heap (forEach_from (add_track l) i tts w)
  = <[l := fold_left (λ e d, appendChild (TrackNode (new_track d)) e) tts el]> (heap w).
Proof.
  revert i w el. induction tts as [|d tts IH]; intros i w el Hh.
  - simpl. by rewrite insert_id.
  - cbn [forEach_from fold_left].
    assert (Hstep : heap (add_track l i d w)
                    = <[l := appendChild (TrackNode (new_track d)) el]> (heap w)).
    { unfold add_track. destruct (track_default (new_track d)).
      - rewrite (update_el_insert _ l _ el); [done|exact Hh].
      - rewrite (update_el_insert _ l _ el); [done|exact Hh]. }
    rewrite (IH (S i) (add_track l i d w) (appendChild (TrackNode (new_track d)) el)).
    + rewrite Hstep. by rewrite insert_insert_eq.
    + rewrite Hstep. apply lookup_insert_eq.
Qed.

Lemma add_track_writes (l : loc) (i : nat) (d : UseMediaTextTrackSource) (w : World) :
  writes (add_track l i d w)
  = writes w ++ (if or_false (tts_default d) then [WSelectedTrack (Z.of_nat i)] else []).
Proof.
  unfold add_track. simpl. destruct (or_false (tts_default d)); simpl; [done|].
  by rewrite app_nil_r.
Qed.

Lemma add_track_selectedTrack (l : loc) (i : nat) (d : UseMediaTextTrackSource) (w : World) :
  selectedTrack (add_track l i d w)
  = if or_false (tts_default d) then Z.of_nat i else selectedTrack w.
Proof. unfold add_track. simpl. by destruct (or_false (tts_default d)). Qed.

Lemma forEach_add_track_writes (l : loc) (tts : list UseMediaTextTrackSource) (i : nat) (w : World) :
  writes (forEach_from (add_track l) i tts w)
  = writes w ++ map (λ p, WSelectedTrack (Z.of_nat p))
      (omap (λ p : nat * UseMediaTextTrackSource,
               if or_false (tts_default p.2) then Some p.1 else None)
         (zip (seq i (length tts)) tts)).
Proof.
  revert i w. induction tts as [|d tts IH]; intros i w.
  - simpl. by rewrite app_nil_r.
  - cbn [forEach_from]. rewrite IH, add_track_writes, default_positions_cons.
    rewrite map_app, <- app_assoc. by destruct (or_false (tts_default d)).
Qed.

Lemma forEach_add_track_selectedTrack (l : loc) (tts : list UseMediaTextTrackSource) (i : nat)
  (w : World) :
  selectedTrack (forEach_from (add_track l) i tts w)
  = from_option Z.of_nat (selectedTrack w)
      (last (omap (λ p : nat * UseMediaTextTrackSource,
                     if or_false (tts_default p.2) then Some p.1 else None)
               (zip (seq i (length tts)) tts))).
Proof.
  revert i w. induction tts as [|d tts IH]; intros i w.
  - done.
  - cbn [forEach_from]. rewrite IH, add_track_selectedTrack, default_positions_cons.
    destruct (or_false (tts_default d)); [|done].
    cbn [app].
    destruct (omap _ (zip (seq (S i) (length tts)) tts)) as [|p ps] eqn:E; [done|].
    rewrite last_cons_cons. rewrite (last_cons p ps).
    by destruct (last ps).
Qed.

Lemma omap_track_removed (ns : list Node) :
  omap (λ n, match n with TrackNode t => Some t | _ => None end)
    (remove_descendants is_track ns) = [].
Proof.
  unfold remove_descendants.
  induction ns as [|n ns IH]; simpl; [done|].
  destruct n as [s|t|tag ch]; simpl; done.
Qed.

Lemma omap_track_new (xs : list UseMediaTextTrackSource) :
  omap (λ n, match n with TrackNode t => Some t | _ => None end)
    (map (λ x, TrackNode (new_track x)) xs) = map new_track xs.
Proof.
  induction xs as [|x xs IH]; [done|].
  change (new_track x :: omap (λ n, match n with TrackNode t => Some t | _ => None end)
            (map (λ x, TrackNode (new_track x)) xs) = new_track x :: map new_track xs).
  by rewrite IH.
Qed.

(** C7: applying a list of text-track descriptors to a bound element with a
    creation context appends one track child per descriptor, in list order
    (after removing the old track children, unless the list is empty and the
    effect returns at its guard); [selectedTrack] is assigned once per
    descriptor whose default flag is set, with that descriptor's position,
    in list order, so its final value is the position of the last default
    descriptor (and its old value when there is none). *)
Theorem track_effect_appends_and_selects
  (d : Document) (tts : list UseMediaTextTrackSource) (w : World) (l : loc)
  (el : HTMLMediaElement) :
  target w = Some l → heap w !! l = Some el →
  ∃ el',
    heap (track_effect (Some d) (Some tts) w) !! l = Some el' ∧
    el_children el'
      = (if bool_decide (tts = []) then el_children el
         else remove_descendants is_track (el_children el))
        ++ map (λ x, TrackNode (new_track x)) tts ∧
    track_children el'
      = (if bool_decide (tts = []) then track_children el else []) ++ map new_track tts ∧
    map track_default (map new_track tts) = map (λ x, or_false (tts_default x)) tts ∧
    writes (track_effect (Some d) (Some tts) w)
      = writes w ++ map (λ p, WSelectedTrack (Z.of_nat p)) (default_positions tts) ∧
    selectedTrack (track_effect (Some d) (Some tts) w)
      = from_option Z.of_nat (selectedTrack w) (last (default_positions tts)).
Proof.
  intros Ht Hh. unfold track_effect.
  rewrite (unref_target_bound w l el Ht Hh).
  destruct tts as [|x tts].
  { exists el. simpl. rewrite !app_nil_r. done. }
  rewrite bool_decide_eq_false_2 by done.
  rewrite (bool_decide_eq_false_2 (x :: tts = [])) by done.
  set (w1 := update_el l _ w).
  assert (Hh1 : heap w1 !! l
                = Some (set_el_children (remove_descendants is_track (el_children el)) el)).
  { unfold w1. rewrite (update_el_insert w l _ el Hh). simpl. apply lookup_insert_eq. }
  eexists. split.
  { rewrite (forEach_add_track_heap l _ 0 w1 _ Hh1). apply lookup_insert_eq. }
  repeat split.
  - by rewrite (fold_appendChild_children (λ x, TrackNode (new_track x))).
  - unfold track_children.
    rewrite (fold_appendChild_children (λ x, TrackNode (new_track x))).
    cbn [el_children set_el_children].
    by rewrite omap_app, omap_track_removed, omap_track_new.
  - by rewrite map_map.
  - by rewrite forEach_add_track_writes.
  - by rewrite forEach_add_track_selectedTrack.
Qed.

(** *** Track selection *)

(** A world in which the element at [l] is [el] with text tracks [ts]. *)
Lemma world_shape (w : World) (l : loc) (el : HTMLMediaElement) :
  heap w !! l = Some el →
  w = set_heap (<[l := set_el_textTracks (el_textTracks el) el]> (heap w)) w.
Proof.
  intros Hh. destruct w as [h t n b bu tr st i1 i2 ls ws]. simpl in *.
  unfold set_heap. simpl. f_equal.
  destruct el. unfold set_el_textTracks. simpl. by rewrite insert_id.
Qed.

Lemma unref_target_shape (w : World) (h : gmap loc HTMLMediaElement) (l : loc)
  (el : HTMLMediaElement) :
  target w = Some l → unref_target (set_heap (<[l := el]> h) w) = Some l.
Proof.
  intros Ht. apply (unref_target_bound _ l el); simpl; [done|apply lookup_insert_eq].
Qed.

Lemma set_textTrack_mode_shape (w : World) (h : gmap loc HTMLMediaElement) (l : loc)
  (el : HTMLMediaElement) (ts : list TextTrack) (id : Z) (m : TextTrackMode) (t : TextTrack) :
  (0 ≤ id)%Z → ts !! Z.to_nat id = Some t →
  set_textTrack_mode l id m (set_heap (<[l := set_el_textTracks ts el]> h) w)
  = (Normal (), set_heap (<[l := set_el_textTracks (<[Z.to_nat id := set_tt_mode m t]> ts) el]> h) w).
Proof.
  intros Hid Ht. unfold set_textTrack_mode. simpl. rewrite lookup_insert_eq.
  unfold textTracks_at. simpl. rewrite decide_True by done. rewrite Ht.
  f_equal. by rewrite update_el_set_heap.
Qed.

Lemma set_textTrack_mode_throws (w : World) (l : loc) (el : HTMLMediaElement) (id : Z)
  (m : TextTrackMode) :
  heap w !! l = Some el → textTracks_at el id = None →
  set_textTrack_mode l id m w = (Throw, w).
Proof. intros Hh Hn. unfold set_textTrack_mode. by rewrite Hh, Hn. Qed.

(** The loop of [disableTrack], started at [i] with [k] tracks to go. *)
Lemma for_range_disable (w : World) (h : gmap loc HTMLMediaElement) (l : loc)
  (el : HTMLMediaElement) (k : nat) :
  ∀ (i : nat) (ts : list TextTrack),
  i + k ≤ length ts →
  for_range i k (λ j, set_textTrack_mode l (Z.of_nat j) disabled)
    (set_heap (<[l := set_el_textTracks ts el]> h) w)
  = (Normal (),
     set_heap (<[l := set_el_textTracks
        (take i ts ++ map (set_tt_mode disabled) (take k (drop i ts)) ++ drop (i + k) ts) el]> h) w).
Proof.
  induction k as [|k IH]; intros i ts Hlen.
  - simpl. rewrite Nat.add_0_r, take_drop. done.
  - cbn [for_range]. unfold mbind, Js_bind.
    destruct (lookup_lt_is_Some_2 ts i) as [t Ht]; [lia|].
    rewrite (set_textTrack_mode_shape w h l el ts (Z.of_nat i) disabled t);
      [|lia|by rewrite Nat2Z.id].
    rewrite Nat2Z.id.
    rewrite IH by (rewrite length_insert; lia).
    do 3 f_equal.
    rewrite (take_S_r _ _ (set_tt_mode disabled t)) by (apply list_lookup_insert_eq; lia).
    rewrite take_insert_ge by lia.
    rewrite drop_insert_lt by lia.
    rewrite drop_insert_lt by lia.
    rewrite (drop_S ts t i Ht). cbn [take map].
    rewrite <- app_assoc. cbn [app].
    by replace (S i + k) with (i + S k) by lia.
Qed.

Lemma disable_all_shape (w : World) (h : gmap loc HTMLMediaElement) (l : loc)
  (el : HTMLMediaElement) (ts : list TextTrack) :
  disable_all l (set_heap (<[l := set_el_textTracks ts el]> h) w)
  = (Normal (),
     set_heap (<[l := set_el_textTracks (map (set_tt_mode disabled) ts) el]> h) w).
Proof.
  unfold disable_all, textTracks_length. simpl. rewrite lookup_insert_eq. simpl.
  rewrite for_range_disable by (simpl; lia).
  do 3 f_equal. simpl. by rewrite drop_all, app_nil_r, take_ge.
Qed.

(** [disableTrack()] on a bound element, in closed form. *)
Lemma disableTrack_None_shape (w : World) (h : gmap loc HTMLMediaElement) (l : loc)
  (el : HTMLMediaElement) (ts : list TextTrack) :
  target w = Some l →
  disableTrack None (set_heap (<[l := set_el_textTracks ts el]> h) w)
  = (Normal (),
     assign_selectedTrack (-1)
       (set_heap (<[l := set_el_textTracks (map (set_tt_mode disabled) ts) el]> h) w)).
Proof.
  intros Ht. unfold disableTrack, usingElRef.
  rewrite unref_target_shape by done.
  unfold mbind, Js_bind. by rewrite disable_all_shape.
Qed.

(** [disableTrack()] disables every native track of the bound element and
    resets [selectedTrack]; nothing else about the tracks changes. *)
Lemma disableTrack_no_argument (w : World) (l : loc) (el : HTMLMediaElement) :
  target w = Some l → heap w !! l = Some el →
  ∃ w' el',
    disableTrack None w = (Normal (), w') ∧
    heap w' !! l = Some el' ∧
    el_textTracks el' = map (set_tt_mode disabled) (el_textTracks el) ∧
    selectedTrack w' = (-1)%Z.
Proof.
  intros Ht Hh.
  pose proof (disableTrack_None_shape w (heap w) l el (el_textTracks el) Ht) as Hd.
  rewrite <- (world_shape w l el Hh) in Hd. rewrite Hd.
  eexists _, _. split; [done|]. simpl. rewrite lookup_insert_eq. done.
Qed.

(** [disableTrack(track)] with a truthy reference to an existing track
    disables that track only. *)
Lemma disableTrack_truthy (track : TrackRef) (w : World) (l : loc) (el : HTMLMediaElement)
  (t : TextTrack) :
  target w = Some l → heap w !! l = Some el →
  truthy_track track = true →
  textTracks_at el (track_id track) = Some t →
  ∃ w' el',
    disableTrack (Some track) w = (Normal (), w') ∧
    heap w' !! l = Some el' ∧
    el_textTracks el'
      = <[Z.to_nat (track_id track) := set_tt_mode disabled t]> (el_textTracks el) ∧
    selectedTrack w' = (-1)%Z.
Proof.
  intros Ht Hh Htr Hat. unfold textTracks_at in Hat. case_decide as Hid; [|done].
  pose proof (set_textTrack_mode_shape w (heap w) l el _ _ disabled t Hid Hat) as Hm.
  rewrite <- (world_shape w l el Hh) in Hm.
  unfold disableTrack, usingElRef.
  rewrite (unref_target_bound w l el Ht Hh), Htr.
  unfold mbind, Js_bind. rewrite Hm.
  eexists _, _. split; [done|]. simpl. rewrite lookup_insert_eq. done.
Qed.

(** C2 (what the code does at the numeric id 0): the reference 0 is falsy,
    so [disableTrack(0)] takes the branch of the call without argument and
    disables every native track of the bound element, not only track 0. *)
Theorem disableTrack_zero_disables_every_track (w : World) (l : loc) (el : HTMLMediaElement) :
  target w = Some l → heap w !! l = Some el →
  disableTrack (Some (TrackNumber 0)) w = disableTrack None w ∧
  ∃ w' el',
    disableTrack (Some (TrackNumber 0)) w = (Normal (), w') ∧
    heap w' !! l = Some el' ∧
    el_textTracks el' = map (set_tt_mode disabled) (el_textTracks el) ∧
    selectedTrack w' = (-1)%Z.
Proof.
  intros Ht Hh. split; [done|].
  change (disableTrack (Some (TrackNumber 0)) w) with (disableTrack None w).
  by apply disableTrack_no_argument.
Qed.

Lemma map_insert_list {A B : Type} (f : A → B) (l : list A) (i : nat) (x : A) :
  map f (<[i := x]> l) = <[i := f x]> (map f l).
Proof.
  revert i. induction l as [|a l IH]; intros [|i]; simpl; try done.
  by rewrite IH.
Qed.

Lemma lookup_map_list {A B : Type} (f : A → B) (l : list A) (i : nat) :
  map f l !! i = f <$> (l !! i).
Proof. revert i. induction l as [|a l IH]; intros [|i]; simpl; try done. Qed.

Lemma map_mode_disabled (ts : list TextTrack) :
  map tt_mode (map (set_tt_mode disabled) ts) = replicate (length ts) disabled.
Proof. induction ts as [|t ts IH]; simpl; [done|]. by rewrite IH. Qed.

(** [enableTrack(track)] with the default [disableTracks = true], in closed
    form, for a reference to an existing track. *)
Lemma enableTrack_shape (track : TrackRef) (w : World) (h : gmap loc HTMLMediaElement)
  (l : loc) (el : HTMLMediaElement) (ts : list TextTrack) (t : TextTrack) :
  target w = Some l →
  (0 ≤ track_id track)%Z → ts !! Z.to_nat (track_id track) = Some t →
  enableTrack track true (set_heap (<[l := set_el_textTracks ts el]> h) w)
  = (Normal (),
     assign_selectedTrack (track_id track)
       (assign_selectedTrack (-1)
          (set_heap (<[l := set_el_textTracks
             (<[Z.to_nat (track_id track) := set_tt_mode showing t]>
                (map (set_tt_mode disabled) ts)) el]> h) w))).
Proof.
  intros Ht Hid Hat. unfold enableTrack, usingElRef.
  rewrite unref_target_shape by done.
  unfold mbind, Js_bind. rewrite disableTrack_None_shape by done.
  change (assign_selectedTrack (-1)
            (set_heap (<[l := set_el_textTracks (map (set_tt_mode disabled) ts) el]> h) w))
    with (set_heap (<[l := set_el_textTracks (map (set_tt_mode disabled) ts) el]> h)
            (assign_selectedTrack (-1) w)).
  rewrite (set_textTrack_mode_shape _ h l el _ _ showing (set_tt_mode disabled t) Hid).
  - done.
  - by rewrite lookup_map_list, Hat.
Qed.

(** C8: on a bound element with tracks 0 and 1, [enableTrack(0)] followed by
    [enableTrack(1)] (default [disableTracks]) returns normally and leaves
    track 1 showing and every other track disabled, with [selectedTrack = 1];
    [disableTrack()] then, and from the first state as well, leaves every
    track disabled and [selectedTrack = -1]. *)
Theorem enableTrack_0_then_1_then_disableTrack (w : World) (l : loc) (el : HTMLMediaElement) :
  target w = Some l → heap w !! l = Some el →
  2 ≤ length (el_textTracks el) →
  ∃ w1 w2 w3 w4 el2 el3 el4,
    enableTrack (TrackNumber 0) true w = (Normal (), w1) ∧
    enableTrack (TrackNumber 1) true w1 = (Normal (), w2) ∧
    heap w2 !! l = Some el2 ∧
    map tt_mode (el_textTracks el2)
      = <[1 := showing]> (replicate (length (el_textTracks el)) disabled) ∧
    selectedTrack w2 = 1%Z ∧
    disableTrack None w2 = (Normal (), w3) ∧
    heap w3 !! l = Some el3 ∧
    map tt_mode (el_textTracks el3) = replicate (length (el_textTracks el)) disabled ∧
    selectedTrack w3 = (-1)%Z ∧
    disableTrack None w = (Normal (), w4) ∧
    heap w4 !! l = Some el4 ∧
    map tt_mode (el_textTracks el4) = replicate (length (el_textTracks el)) disabled ∧
    selectedTrack w4 = (-1)%Z.
Proof.
  intros Ht Hh Hlen.
  destruct (el_textTracks el) as [|t0 [|t1 ts]] eqn:Hts; simpl in Hlen; [lia|lia|].
  set (sd := set_tt_mode disabled).
  set (ts1 := set_tt_mode showing t0 :: sd t1 :: map sd ts).
  set (ts2 := sd (set_tt_mode showing t0) :: set_tt_mode showing (sd t1) :: map sd (map sd ts)).
  set (wa := assign_selectedTrack 0 (assign_selectedTrack (-1) w)).
  set (wb := assign_selectedTrack 1 (assign_selectedTrack (-1) wa)).
  set (wc := assign_selectedTrack (-1) wb).
  assert (H1 : enableTrack (TrackNumber 0) true w
               = (Normal (), set_heap (<[l := set_el_textTracks ts1 el]> (heap w)) wa)).
  { pose proof (enableTrack_shape (TrackNumber 0) w (heap w) l el (el_textTracks el) t0 Ht) as H.
    rewrite <- (world_shape w l el Hh) in H.
    specialize (H ltac:(done) ltac:(by rewrite Hts)).
    rewrite Hts in H. exact H. }
  assert (H2 : enableTrack (TrackNumber 1) true
                 (set_heap (<[l := set_el_textTracks ts1 el]> (heap w)) wa)
               = (Normal (), set_heap (<[l := set_el_textTracks ts2 el]> (heap w)) wb)).
  { exact (enableTrack_shape (TrackNumber 1) wa (heap w) l el ts1 (sd t1) Ht
             ltac:(done) ltac:(done)). }
  assert (H3 : disableTrack None (set_heap (<[l := set_el_textTracks ts2 el]> (heap w)) wb)
               = (Normal (),
                  set_heap (<[l := set_el_textTracks (map sd ts2) el]> (heap w)) wc)).
  { exact (disableTrack_None_shape wb (heap w) l el ts2 Ht). }
  destruct (disableTrack_no_argument w l el Ht Hh) as (w4 & el4 & Hd & Hh4 & Hts4 & Hs4).
  eexists _, _, _, w4, _, _, el4.
  split; [exact H1|]. split; [exact H2|].
  split; [simpl; apply lookup_insert_eq|].
  split.
  { cbn [el_textTracks set_el_textTracks]. unfold ts2, sd. simpl.
    by rewrite !map_mode_disabled, length_map. }
  split; [done|]. split; [exact H3|].
  split; [simpl; apply lookup_insert_eq|].
  split.
  { cbn [el_textTracks set_el_textTracks]. unfold sd. simpl.
    by rewrite map_mode_disabled, !length_map. }
  split; [done|]. split; [exact Hd|]. split; [exact Hh4|].
  split; [|exact Hs4].
  rewrite Hts4, Hts, map_mode_disabled. done.
Qed.

(** *** The rebuilt track list *)

Lemma tracksToArray_lookup (ts : list TextTrack) (i : nat) :
  tracksToArray ts !! i
  = (λ t, mkUseMediaTextTrack (Z.of_nat i) (tt_label t) (tt_language t) (tt_mode t) (tt_kind t)
            (tt_inBandMetadataTrackDispatchType t) (tt_cues t) (tt_activeCues t)) <$> ts !! i.
Proof. unfold tracksToArray. apply list_lookup_imap. Qed.

Lemma tracksToArray_ids (ts : list TextTrack) :
  map umt_id (tracksToArray ts) = map Z.of_nat (seq 0 (length ts)).
Proof.
  apply list_eq. intros i. rewrite !lookup_map_list, tracksToArray_lookup.
  destruct (ts !! i) as [t|] eqn:E; simpl.
  - rewrite lookup_seq_lt by (by apply lookup_lt_Some in E). done.
  - rewrite lookup_seq_ge by (by apply lookup_ge_None in E). done.
Qed.

(** C9: each of the three listeners on the native track list replaces
    [tracks] by a list as long as the native one whose i-th entry has id i
    and carries the fields of the i-th native track. *)
Theorem tracks_rebuilt_with_index_ids
  (el : loc) (e : HTMLMediaElement) (type : string) (w : World) :
  listeners w = Some el → heap w !! el = Some e →
  type = "addtrack" ∨ type = "removetrack" ∨ type = "change" →
  tracks (dispatch_textTracks el type w) = tracksToArray (el_textTracks e) ∧
  length (tracks (dispatch_textTracks el type w)) = length (el_textTracks e) ∧
  map umt_id (tracks (dispatch_textTracks el type w))
    = map Z.of_nat (seq 0 (length (el_textTracks e))) ∧
  ∀ i : nat,
    match tracks (dispatch_textTracks el type w) !! i, el_textTracks e !! i with
    | Some d, Some t =>
        umt_id d = Z.of_nat i ∧ umt_label d = tt_label t ∧ umt_kind d = tt_kind t ∧
        umt_language d = tt_language t ∧ umt_mode d = tt_mode t ∧
        umt_activeCues d = tt_activeCues t ∧ umt_cues d = tt_cues t ∧
        umt_inBandMetadataTrackDispatchType d = tt_inBandMetadataTrackDispatchType t
    | None, None => True
    | _, _ => False
    end.
Proof.
  intros Hl Hh Hty.
  assert (Hd : tracks (dispatch_textTracks el type w) = tracksToArray (el_textTracks e)).
  { unfold dispatch_textTracks. rewrite decide_True by done.
    destruct Hty as [-> | [-> | ->]]; unfold run_listeners; simpl;
      unfold rebuild_tracks; simpl; by rewrite Hh. }
  rewrite Hd. split; [done|]. split; [|split].
  - unfold tracksToArray. by rewrite length_imap.
  - apply tracksToArray_ids.
  - intros i. rewrite tracksToArray_lookup. by destruct (el_textTracks e !! i).
Qed.

(** *** Derived flags *)

Lemma run_listeners_preserves (P : World → Prop) (table : list (string * (World → World)))
  (type : string) (w : World) :
  P w → (∀ entry w', entry ∈ table → P w' → P (entry.2 w')) →
  P (run_listeners table type w).
Proof.
  unfold run_listeners. revert w.
  induction table as [|entry table IH]; intros w Hw Hstep; simpl; [done|].
  apply IH.
  - case_decide; [|done]. apply Hstep; [left|done].
  - intros entry' w' Hin. apply Hstep. by right.
Qed.

Section Frames.

Variable r : BoolRef.

Lemma frames_id : frames r (λ w, w).
Proof. by intros w. Qed.

Lemma frames_compose (f g : World → World) :
  frames r f → frames r g → frames r (λ w, g (f w)).
Proof.
  intros Hf Hg w. destruct (Hf w) as [Hf1 Hf2], (Hg (f w)) as [Hg1 Hg2].
  split; congruence.
Qed.

Lemma frames_set_heap (h : World → gmap loc HTMLMediaElement) :
  frames r (λ w, set_heap (h w) w).
Proof. by intros w. Qed.

Lemma frames_update_el (l : loc) (f : HTMLMediaElement → HTMLMediaElement) :
  frames r (update_el l f).
Proof. by intros w. Qed.

Lemma frames_set_ignoreCurrentTime (b : bool) : frames r (set_ignoreCurrentTime b).
Proof. by intros w. Qed.

Lemma frames_set_ignorePlaying (b : bool) : frames r (set_ignorePlaying b).
Proof. by intros w. Qed.

Lemma frames_set_listeners (l : option loc) : frames r (set_listeners l).
Proof. by intros w. Qed.

Lemma writes_to_bool_snoc_other (ws : list Write) (wr : Write) :
  (∀ v, wr ≠ WBool r v) →
  writes_to_bool r (ws ++ [wr]) = writes_to_bool r ws.
Proof.
  intros Hne. unfold writes_to_bool. rewrite omap_app. simpl.
  destruct wr as [| r' v | | |]; try by rewrite app_nil_r.
  case_decide; [subst; by destruct (Hne v)|by rewrite app_nil_r].
Qed.

Lemma frames_assign_num (c : NumRef) (v : number) : frames r (assign_num c v).
Proof. intros w. split; [done|]. simpl. by apply writes_to_bool_snoc_other. Qed.

Lemma frames_assign_buffered (v : list (number * number)) : frames r (assign_buffered v).
Proof. intros w. split; [done|]. simpl. by apply writes_to_bool_snoc_other. Qed.

Lemma frames_assign_tracks (v : list UseMediaTextTrack) : frames r (assign_tracks v).
Proof. intros w. split; [done|]. simpl. by apply writes_to_bool_snoc_other. Qed.

Lemma frames_assign_selectedTrack (v : Z) : frames r (assign_selectedTrack v).
Proof. intros w. split; [done|]. simpl. by apply writes_to_bool_snoc_other. Qed.

Lemma frames_assign_bool (r' : BoolRef) (v : bool) :
  r' ≠ r → frames r (assign_bool r' v).
Proof.
  intros Hne w. split.
  - simpl. by rewrite fn_lookup_insert_ne.
  - simpl. apply writes_to_bool_snoc_other. congruence.
Qed.

Lemma frames_with_target (f : HTMLMediaElement → World → World) :
  (∀ el, frames r (f el)) → frames r (with_target f).
Proof. intros Hf w. unfold with_target. destruct (target_el w); [apply Hf|done]. Qed.

Lemma frames_currentTime_cb (time : number) : frames r (currentTime_cb time).
Proof. intros w. unfold currentTime_cb. by destruct (unref_target w). Qed.

Lemma frames_playing_cb (isPlaying : bool) : frames r (playing_cb isPlaying).
Proof. intros w. unfold playing_cb. by destruct (unref_target w). Qed.

Lemma frames_write_currentTime (v : number) : frames r (write_currentTime v).
Proof.
  intros w. unfold write_currentTime.
  destruct (_ && _).
  - apply (frames_compose (assign_num currentTime v) (currentTime_cb v)).
    + apply frames_assign_num.
    + apply frames_currentTime_cb.
  - apply frames_assign_num.
Qed.

Lemma frames_write_playing (v : bool) : playing ≠ r → frames r (write_playing v).
Proof.
  intros Hne w. unfold write_playing.
  destruct (_ && _).
  - apply (frames_compose (assign_bool playing v) (playing_cb v)).
    + by apply frames_assign_bool.
    + apply frames_playing_cb.
  - by apply frames_assign_bool.
Qed.

Lemma frames_ignoreCurrentTimeUpdates (updater : World → World) :
  frames r updater → frames r (ignoreCurrentTimeUpdates updater).
Proof.
  intros Hu. unfold ignoreCurrentTimeUpdates.
  apply (frames_compose (λ w, updater (set_ignoreCurrentTime true w)) (set_ignoreCurrentTime false)).
  - apply (frames_compose (set_ignoreCurrentTime true) updater); [|done].
    apply frames_set_ignoreCurrentTime.
  - apply frames_set_ignoreCurrentTime.
Qed.

Lemma frames_ignorePlayingUpdates (updater : World → World) :
  frames r updater → frames r (ignorePlayingUpdates updater).
Proof.
  intros Hu. unfold ignorePlayingUpdates.
  apply (frames_compose (λ w, updater (set_ignorePlaying true w)) (set_ignorePlaying false)).
  - apply (frames_compose (set_ignorePlaying true) updater); [|done].
    apply frames_set_ignorePlaying.
  - apply frames_set_ignorePlaying.
Qed.

Lemma frames_run_listeners (table : list (string * (World → World))) (type : string) :
  (∀ entry, entry ∈ table → frames r entry.2) → frames r (run_listeners table type).
Proof.
  intros Ht w.
  apply (run_listeners_preserves
    (λ w', bools w' r = bools w r ∧
           writes_to_bool r (writes w') = writes_to_bool r (writes w))); [done|].
  intros entry w' Hin [H1 H2]. destruct (Ht entry Hin w') as [H3 H4]. split; congruence.
Qed.

Lemma frames_fold_left {A : Type} (f : A → World → World) (xs : list A) :
  (∀ x, frames r (f x)) → frames r (λ w, fold_left (λ w x, f x w) xs w).
Proof.
  intros Hf. induction xs as [|x xs IH]; [apply frames_id|].
  simpl. apply (frames_compose (f x) (λ w, fold_left (λ w x, f x w) xs w)); [apply Hf|apply IH].
Qed.

Lemma frames_forEach_from {A : Type} (body : nat → A → World → World) (xs : list A) :
  (∀ i x, frames r (body i x)) → ∀ i, frames r (forEach_from body i xs).
Proof.
  intros Hb. induction xs as [|x xs IH]; intros i; [apply frames_id|].
  simpl. apply (frames_compose (body i x) (forEach_from body (S i) xs)); [apply Hb|apply IH].
Qed.

Lemma frames_source_effect (document : option Document) (src : SrcOption) :
  frames r (source_effect document src).
Proof.
  intros w. unfold source_effect.
  destruct document; [|done]. destruct (unref_target w) as [l|]; [|done].
  destruct (negb _); [done|].
  apply (frames_compose
    (λ w, fold_left (λ w s, update_el l (appendChild (SourceNode (new_source s))) w)
            (merge_sources src)
            (update_el l (λ e, set_el_children (remove_descendants is_source (el_children e)) e) w))
    (update_el l (call Load))); [|apply frames_update_el].
  apply (frames_compose
    (update_el l (λ e, set_el_children (remove_descendants is_source (el_children e)) e))
    (λ w, fold_left (λ w s, update_el l (appendChild (SourceNode (new_source s))) w)
            (merge_sources src) w)); [apply frames_update_el|].
  apply (frames_fold_left (λ s, update_el l (appendChild (SourceNode (new_source s))))).
  intros s. apply frames_update_el.
Qed.

Lemma frames_add_track (l : loc) (i : nat) (d : UseMediaTextTrackSource) :
  frames r (add_track l i d).
Proof.
  intros w. unfold add_track. destruct (track_default _).
  - apply (frames_compose (assign_selectedTrack (Z.of_nat i))
             (update_el l (appendChild (TrackNode (new_track d))))).
    + apply frames_assign_selectedTrack.
    + apply frames_update_el.
  - apply frames_update_el.
Qed.

Lemma frames_track_effect (document : option Document)
  (textTracks : option (list UseMediaTextTrackSource)) :
  frames r (track_effect document textTracks).
Proof.
  intros w. unfold track_effect.
  destruct document; [|done]. destruct textTracks as [tts|]; [|done].
  destruct (unref_target w) as [l|]; [|done].
  destruct (bool_decide _); [done|].
  apply (frames_compose
    (update_el l (λ e, set_el_children (remove_descendants is_track (el_children e)) e))
    (forEach_from (add_track l) 0 tts)); [apply frames_update_el|].
  apply frames_forEach_from. intros i x. apply frames_add_track.
Qed.

Lemma frames_target_cb : frames r target_cb.
Proof.
  intros w. unfold target_cb. destruct (listeners w); [done|].
  by destruct (unref_target w).
Qed.

Lemma frames_rebuild_tracks (l : loc) : frames r (rebuild_tracks l).
Proof.
  intros w. unfold rebuild_tracks. destruct (heap w !! l); [|done].
  apply frames_assign_tracks.
Qed.

Lemma frames_dispatch_textTracks (l : loc) (type : string) :
  frames r (dispatch_textTracks l type).
Proof.
  intros w. unfold dispatch_textTracks. case_decide; [|done].
  apply frames_run_listeners. intros entry Hin.
  unfold textTracks_listeners in Hin.
  repeat (apply elem_of_cons in Hin as [-> | Hin]); try apply frames_rebuild_tracks.
  by apply elem_of_nil in Hin.
Qed.

(** The same for the functions in [Js]: the world they leave behind. *)
Lemma frames_js_bind {A B : Type} (m : Js A) (f : A → Js B) :
  frames r (λ w, (m w).2) → (∀ a, frames r (λ w, (f a w).2)) →
  frames r (λ w, ((m ≫= f) w).2).
Proof.
  intros Hm Hf w. unfold mbind, Js_bind.
  specialize (Hm w). simpl in Hm. destruct (m w) as [[a|] w'] eqn:E; simpl in *; [|exact Hm].
  destruct (Hf a w') as [H1 H2]. destruct Hm as [H3 H4]. simpl in *. split; congruence.
Qed.

Lemma frames_set_textTrack_mode (l : loc) (id : Z) (m : TextTrackMode) :
  frames r (λ w, (set_textTrack_mode l id m w).2).
Proof.
  intros w. unfold set_textTrack_mode.
  destruct (heap w !! l) as [el|]; [|done]. by destruct (textTracks_at el id).
Qed.

Lemma frames_for_range (body : nat → Js unit) (count : nat) :
  (∀ i, frames r (λ w, (body i w).2)) →
  ∀ start, frames r (λ w, (for_range start count body w).2).
Proof.
  intros Hb. induction count as [|count IH]; intros start; [by intros w|].
  cbn [for_range]. apply frames_js_bind; [apply Hb|]. intros _. apply IH.
Qed.

Lemma frames_disable_all (l : loc) : frames r (λ w, (disable_all l w).2).
Proof.
  intros w. unfold disable_all.
  apply (frames_for_range (λ i, set_textTrack_mode l (Z.of_nat i) disabled)).
  intros i. apply frames_set_textTrack_mode.
Qed.

Lemma frames_lift (f : World → World) : frames r f → frames r (λ w, (lift f w).2).
Proof. intros Hf w. apply Hf. Qed.

Lemma frames_usingElRef (cb : loc → Js unit) :
  (∀ l, frames r (λ w, (cb l w).2)) → frames r (λ w, (usingElRef cb w).2).
Proof.
  intros Hcb w. unfold usingElRef. destruct (unref_target w) as [l|]; [apply Hcb|done].
Qed.

Lemma frames_disableTrack (track : option TrackRef) :
  frames r (λ w, (disableTrack track w).2).
Proof.
  unfold disableTrack. apply frames_usingElRef. intros l.
  apply frames_js_bind.
  - destruct track as [t|]; [|apply frames_disable_all].
    destruct (truthy_track t); [apply frames_set_textTrack_mode|apply frames_disable_all].
  - intros _. apply frames_lift, frames_assign_selectedTrack.
Qed.

Lemma frames_enableTrack (track : TrackRef) (disableTracks : bool) :
  frames r (λ w, (enableTrack track disableTracks w).2).
Proof.
  unfold enableTrack. apply frames_usingElRef. intros l.
  apply frames_js_bind.
  - destruct disableTracks; [apply frames_disableTrack|by intros w].
  - intros _. apply frames_js_bind; [apply frames_set_textTrack_mode|].
    intros _. apply frames_lift, frames_assign_selectedTrack.
Qed.

End Frames.

Ltac solve_frames :=
  repeat first
    [ apply frames_ignoreCurrentTimeUpdates
    | apply frames_ignorePlayingUpdates
    | apply frames_with_target; intros ?
    | apply frames_write_currentTime
    | apply frames_write_playing; done
    | apply frames_assign_num
    | apply frames_assign_buffered
    | apply frames_assign_bool; done ].

Lemma frames_buffering_media_listeners (entry : string * (World → World)) :
  entry ∈ media_listeners → frames buffering entry.2.
Proof.
  intros Hin. unfold media_listeners in Hin.
  repeat (apply elem_of_cons in Hin as [-> | Hin]); cbn [snd]; try solve_frames.
  by apply elem_of_nil in Hin.
Qed.

Lemma frames_buffering_step (op : Op) : frames buffering (λ w, step w op).
Proof.
  destruct op; cbn [step].
  - intros w. unfold dispatch. case_decide; [|done].
    apply frames_run_listeners, frames_buffering_media_listeners.
  - apply frames_dispatch_textTracks.
  - apply frames_write_currentTime.
  - by apply frames_write_playing.
  - apply frames_enableTrack.
  - apply frames_disableTrack.
  - apply frames_source_effect.
  - apply frames_track_effect.
  - apply frames_target_cb.
Qed.

(** C3 (what the code does for [buffering]): no run of the controller, made
    of native events, caller writes, track operations and effect runs, ever
    assigns to [buffering]; the ref keeps the value it started with. *)
Theorem buffering_is_never_updated (ops : list Op) (w : World) :
  bools (run ops w) buffering = bools w buffering ∧
  writes_to_bool buffering (writes (run ops w)) = writes_to_bool buffering (writes w).
Proof.
  unfold run. revert w. induction ops as [|op ops IH]; intros w; [done|].
  simpl. destruct (IH (step w op)) as [H1 H2].
  destruct (frames_buffering_step op w) as [H3 H4]. split; congruence.
Qed.

Lemma dispatch_bound (w : World) (l : loc) (el : HTMLMediaElement) (type : string) :
  target w = Some l → heap w !! l = Some el →
  dispatch l type w = run_listeners media_listeners type w.
Proof.
  intros Ht Hh. unfold dispatch. by rewrite (unref_target_bound w l el Ht Hh), decide_True.
Qed.

(** The other four flags each have a listener that assigns them. *)
Lemma sibling_flags_have_listeners (w : World) (l : loc) (el : HTMLMediaElement) :
  target w = Some l → heap w !! l = Some el →
  writes (dispatch l "seeking" w) = writes w ++ [WBool seeking true] ∧
  writes (dispatch l "seeked" w) = writes w ++ [WBool seeking false] ∧
  writes (dispatch l "waiting" w) = writes w ++ [WBool waiting true] ∧
  writes (dispatch l "playing" w) = writes w ++ [WBool waiting false] ∧
  writes (dispatch l "stalled" w) = writes w ++ [WBool stalled true] ∧
  writes (dispatch l "ended" w) = writes w ++ [WBool ended true].
Proof.
  intros Ht Hh. rewrite !(dispatch_bound w l el _ Ht Hh). by repeat split.
Qed.

(** *** The suppression flags are lowered between steps *)

Lemma flags_fold_update_el {A : Type} (l : loc) (F : A → HTMLMediaElement → HTMLMediaElement)
  (xs : list A) (w : World) :
  flags (fold_left (λ w x, update_el l (F x) w) xs w) = flags w.
Proof. revert w. induction xs as [|x xs IH]; intros w; simpl; [done|]. by rewrite IH. Qed.

Lemma flags_forEach_add_track (l : loc) (tts : list UseMediaTextTrackSource) (i : nat) (w : World) :
  flags (forEach_from (add_track l) i tts w) = flags w.
Proof.
  revert i w. induction tts as [|d tts IH]; intros i w; simpl; [done|].
  rewrite IH. unfold add_track. by destruct (track_default _).
Qed.

Lemma flags_set_textTrack_mode (l : loc) (id : Z) (m : TextTrackMode) (w : World) :
  flags (set_textTrack_mode l id m w).2 = flags w.
Proof.
  unfold set_textTrack_mode. destruct (heap w !! l) as [el|]; [|done].
  by destruct (textTracks_at el id).
Qed.

Lemma flags_for_range (body : nat → Js unit) (count : nat) :
  (∀ i w, flags (body i w).2 = flags w) →
  ∀ start w, flags (for_range start count body w).2 = flags w.
Proof.
  intros Hb. induction count as [|count IH]; intros start w; [done|].
  cbn [for_range]. unfold mbind, Js_bind.
  specialize (Hb start w). destruct (body start w) as [[[]|] w']; simpl in *; [|done].
  by rewrite IH.
Qed.

Lemma flags_disableTrack (track : option TrackRef) (w : World) :
  flags (disableTrack track w).2 = flags w.
Proof.
  unfold disableTrack, usingElRef. destruct (unref_target w) as [l|]; [|done].
  unfold mbind, Js_bind.
  assert (Hall : flags (disable_all l w).2 = flags w).
  { unfold disable_all.
    apply (flags_for_range (λ i, set_textTrack_mode l (Z.of_nat i) disabled)).
    intros i w'. apply flags_set_textTrack_mode. }
  assert (Hone : ∀ id, flags (set_textTrack_mode l id disabled w).2 = flags w).
  { intros id. apply flags_set_textTrack_mode. }
  destruct track as [t|]; [destruct (truthy_track t)|].
  - specialize (Hone (track_id t)).
    by destruct (set_textTrack_mode l (track_id t) disabled w) as [[[]|] w'].
  - by destruct (disable_all l w) as [[[]|] w'].
  - by destruct (disable_all l w) as [[[]|] w'].
Qed.

Lemma flags_enableTrack (track : TrackRef) (disableTracks : bool) (w : World) :
  flags (enableTrack track disableTracks w).2 = flags w.
Proof.
  unfold enableTrack, usingElRef. destruct (unref_target w) as [l|]; [|done].
  unfold mbind, Js_bind.
  assert (H1 : flags ((if disableTracks then disableTrack None else mret ()) w).2 = flags w).
  { destruct disableTracks; [apply flags_disableTrack|done]. }
  destruct ((if disableTracks then disableTrack None else mret ()) w) as [[[]|] w1];
    simpl in *; [|done].
  pose proof (flags_set_textTrack_mode l (track_id track) showing w1) as H2.
  destruct (set_textTrack_mode l (track_id track) showing w1) as [[[]|] w2];
    unfold flags in *; simpl in *; congruence.
Qed.

Lemma step_idle (op : Op) (w : World) : idle w → idle (step w op).
Proof.
  unfold idle. intros Hw. destruct op; cbn [step].
  - unfold dispatch. case_decide; [|done].
    apply (run_listeners_preserves (λ w', flags w' = (false, false))); [done|].
    intros entry w' Hin Hw'. unfold media_listeners in Hin.
    unfold flags in *. injection Hw' as Hc Hp.
    repeat (apply elem_of_cons in Hin as [-> | Hin]); cbn [snd];
      try (unfold with_target; destruct (target_el _));
      try (simpl; by rewrite ?Hc, ?Hp).
    + unfold ignoreCurrentTimeUpdates, with_target, write_currentTime.
      destruct (target_el _); simpl; rewrite ?andb_false_r; simpl; by rewrite Hp.
    + unfold ignorePlayingUpdates, write_playing. simpl. rewrite andb_false_r. simpl.
      by rewrite Hc.
    + unfold ignorePlayingUpdates, write_playing. simpl. rewrite andb_false_r. simpl.
      by rewrite Hc.
    + by apply elem_of_nil in Hin.
  - unfold dispatch_textTracks. case_decide; [|done].
    apply (run_listeners_preserves (λ w', flags w' = (false, false))); [done|].
    intros entry w' Hin Hw'. unfold textTracks_listeners in Hin.
    repeat (apply elem_of_cons in Hin as [-> | Hin]); cbn [snd];
      try (unfold rebuild_tracks; by destruct (heap w' !! el)).
    by apply elem_of_nil in Hin.
  - unfold write_currentTime. destruct (_ && _); [|done].
    unfold currentTime_cb. by destruct (unref_target _).
  - unfold write_playing. destruct (_ && _); [|done].
    unfold playing_cb. by destruct (unref_target _).
  - by rewrite flags_enableTrack.
  - by rewrite flags_disableTrack.
  - unfold source_effect. destruct document; [|done].
    destruct (unref_target w) as [l|]; [|done]. destruct (negb _); [done|].
    change (flags (fold_left
      (λ w s, update_el l (appendChild (SourceNode (new_source s))) w) (merge_sources src)
      (update_el l (λ e, set_el_children (remove_descendants is_source (el_children e)) e) w))
      = (false, false)).
    by rewrite (flags_fold_update_el l (λ s, appendChild (SourceNode (new_source s)))).
  - unfold track_effect. destruct document; [|done].
    destruct textTracks as [tts|]; [|done].
    destruct (unref_target w) as [l|]; [|done]. destruct (bool_decide _); [done|].
    by rewrite flags_forEach_add_track.
  - unfold target_cb. destruct (listeners w); [done|]. by destruct (unref_target w).
Qed.

(** Every state the controller reaches from its initial state has both
    watches idle. *)
Lemma reachable_idle (zero one : number) (h : gmap loc HTMLMediaElement) (t : option loc)
  (ops : list Op) :
  idle (run ops (useMediaControls zero one h t)).
Proof.
  unfold run.
  assert (H0 : idle (useMediaControls zero one h t)) by done.
  revert H0. generalize (useMediaControls zero one h t).
  induction ops as [|op ops IH]; intros w Hw; [done|].
  simpl. apply IH. by apply step_idle.
Qed.

(** *** Bidirectional bindings *)

(** No native event makes the controller touch an element: the listeners
    only assign refs, and the two that assign a watched ref do it under the
    suppression flag. *)
Lemma dispatch_heap (l : loc) (type : string) (w : World) :
  heap (dispatch l type w) = heap w.
Proof.
  unfold dispatch. case_decide; [|done].
  apply (run_listeners_preserves (λ w', heap w' = heap w)); [done|].
  intros entry w' Hin Hw'. unfold media_listeners in Hin.
  repeat (apply elem_of_cons in Hin as [-> | Hin]); cbn [snd]; try done.
  - unfold ignoreCurrentTimeUpdates, with_target, write_currentTime.
    destruct (target_el _); simpl; [|done]. by rewrite andb_false_r.
  - unfold with_target. by destruct (target_el _).
  - unfold with_target. by destruct (target_el _).
  - unfold with_target. by destruct (target_el _).
  - unfold ignorePlayingUpdates, write_playing. simpl. by rewrite andb_false_r.
  - unfold ignorePlayingUpdates, write_playing. simpl. by rewrite andb_false_r.
  - by apply elem_of_nil in Hin.
Qed.



Lemma write_currentTime_bound (w : World) (l : loc) (el : HTMLMediaElement) (v : number) :
  target w = Some l → heap w !! l = Some el →
  ignoreCurrentTime w = false → v ≠ nums w currentTime →
  write_currentTime v w
  = set_heap (<[l := set_el_currentTime v el]> (heap w)) (assign_num currentTime v w).
Proof.
  intros Ht Hh Hi Hv. unfold write_currentTime.
  rewrite bool_decide_eq_true_2 by done. simpl. rewrite Hi. simpl.
  unfold currentTime_cb.
  rewrite (unref_target_bound (assign_num currentTime v w) l el Ht Hh).
  by rewrite (update_el_insert (assign_num currentTime v w) l _ el Hh).
Qed.

Lemma write_playing_bound (w : World) (l : loc) (el : HTMLMediaElement) (b : bool) :
  target w = Some l → heap w !! l = Some el →
  ignorePlaying w = false → b ≠ bools w playing →
  write_playing b w
  = set_heap (<[l := call (if b then Play else Pause) el]> (heap w)) (assign_bool playing b w).
Proof.
  intros Ht Hh Hi Hv. unfold write_playing.
  rewrite bool_decide_eq_true_2 by done. simpl. rewrite Hi. simpl.
  unfold playing_cb.
  rewrite (unref_target_bound (assign_bool playing b w) l el Ht Hh).
  by rewrite (update_el_insert (assign_bool playing b w) l _ el Hh).
Qed.

(** A write of the value the ref already holds is no change: the watch is
    not notified and the element is not touched. *)
Lemma write_currentTime_same (w : World) :
  heap (write_currentTime (nums w currentTime) w) = heap w.
Proof. unfold write_currentTime. by rewrite bool_decide_eq_false_2 by (intros H; by apply H). Qed.

(** A write of the value already held, with the callback run at once:
    nothing reaches the element.  The same holds at a deferred flush, see
    the samples below. *)
Lemma write_playing_same (w : World) :
  heap (write_playing (bools w playing) w) = heap w.
Proof. unfold write_playing. by rewrite bool_decide_eq_false_2 by (intros H; by apply H). Qed.

(** *** One tick at a time *)












(** ** Further properties of the track operations *)

Lemma enableTrack_keep_shape (track : TrackRef) (w : World) (h : gmap loc HTMLMediaElement)
  (l : loc) (el : HTMLMediaElement) (ts : list TextTrack) (t : TextTrack) :
  target w = Some l →
  (0 ≤ track_id track)%Z → ts !! Z.to_nat (track_id track) = Some t →
  enableTrack track false (set_heap (<[l := set_el_textTracks ts el]> h) w)
  = (Normal (),
     assign_selectedTrack (track_id track)
       (set_heap (<[l := set_el_textTracks
          (<[Z.to_nat (track_id track) := set_tt_mode showing t]> ts) el]> h) w)).
Proof.
  intros Ht Hid Hat. unfold enableTrack, usingElRef.
  rewrite unref_target_shape by done.
  unfold mbind, Js_bind, mret, Js_ret.
  by rewrite (set_textTrack_mode_shape w h l el ts _ showing t Hid Hat).
Qed.

Lemma textTracks_at_Some (el : HTMLMediaElement) (id : Z) (t : TextTrack) :
  textTracks_at el id = Some t →
  (0 ≤ id)%Z ∧ el_textTracks el !! Z.to_nat id = Some t.
Proof. unfold textTracks_at. case_decide; [done|discriminate]. Qed.

Lemma map_mode_insert (ts : list TextTrack) (i : nat) (m : TextTrackMode) (t : TextTrack) :
  map tt_mode (<[i := set_tt_mode m t]> ts) = <[i := m]> (map tt_mode ts).
Proof. by rewrite map_insert_list. Qed.

(** X1: [enableTrack(track)] with the default [disableTracks] and a
    reference to an existing track returns normally and leaves that track
    showing and every other track disabled, whatever the modes were before;
    only the modes of the bound element change, and [selectedTrack] is the
    track's id. *)
Theorem enableTrack_shows_only_that_track
  (track : TrackRef) (w : World) (l : loc) (el : HTMLMediaElement) (t : TextTrack) :
  target w = Some l → heap w !! l = Some el →
  textTracks_at el (track_id track) = Some t →
  ∃ w' el',
    enableTrack track true w = (Normal (), w') ∧
    heap w' = <[l := el']> (heap w) ∧
    el_textTracks el'
      = <[Z.to_nat (track_id track) := set_tt_mode showing t]>
          (map (set_tt_mode disabled) (el_textTracks el)) ∧
    map tt_mode (el_textTracks el')
      = <[Z.to_nat (track_id track) := showing]> (replicate (length (el_textTracks el)) disabled) ∧
    el_children el' = el_children el ∧ el_calls el' = el_calls el ∧
    selectedTrack w' = track_id track.
Proof.
  intros Ht Hh Hat. apply textTracks_at_Some in Hat as [Hid Hat].
  pose proof (enableTrack_shape track w (heap w) l el (el_textTracks el) t Ht Hid Hat) as He.
  rewrite <- (world_shape w l el Hh) in He.
  eexists _, _. split; [exact He|].
  split; [reflexivity|]. cbn [el_textTracks set_el_textTracks]. split; [done|]. split; [|done].
  by rewrite map_mode_insert, map_mode_disabled.
Qed.

(** X2: [enableTrack(track, false)] with a reference to an existing track
    changes the mode of that track only: it becomes showing, the other
    tracks keep their modes, and [selectedTrack] is the track's id. *)
Theorem enableTrack_keeping_others
  (track : TrackRef) (w : World) (l : loc) (el : HTMLMediaElement) (t : TextTrack) :
  target w = Some l → heap w !! l = Some el →
  textTracks_at el (track_id track) = Some t →
  ∃ w' el',
    enableTrack track false w = (Normal (), w') ∧
    heap w' = <[l := el']> (heap w) ∧
    el_textTracks el' = <[Z.to_nat (track_id track) := set_tt_mode showing t]> (el_textTracks el) ∧
    map tt_mode (el_textTracks el')
      = <[Z.to_nat (track_id track) := showing]> (map tt_mode (el_textTracks el)) ∧
    selectedTrack w' = track_id track ∧
    writes w' = writes w ++ [WSelectedTrack (track_id track)].
Proof.
  intros Ht Hh Hat. apply textTracks_at_Some in Hat as [Hid Hat].
  pose proof (enableTrack_keep_shape track w (heap w) l el (el_textTracks el) t Ht Hid Hat) as He.
  rewrite <- (world_shape w l el Hh) in He.
  eexists _, _. split; [exact He|].
  split; [reflexivity|]. cbn [el_textTracks set_el_textTracks]. split; [done|]. split; [|done].
  by rewrite map_mode_insert.
Qed.

(** X3: [disableTrack(track)] with a truthy reference (a non-zero number or
    any descriptor, also one whose id is 0) to an existing track disables
    that track only and resets [selectedTrack] to -1. *)
Theorem disableTrack_disables_only_that_track
  (track : TrackRef) (w : World) (l : loc) (el : HTMLMediaElement) (t : TextTrack) :
  target w = Some l → heap w !! l = Some el →
  truthy_track track = true →
  textTracks_at el (track_id track) = Some t →
  ∃ w' el',
    disableTrack (Some track) w = (Normal (), w') ∧
    heap w' = <[l := el']> (heap w) ∧
    el_textTracks el' = <[Z.to_nat (track_id track) := set_tt_mode disabled t]> (el_textTracks el) ∧
    map tt_mode (el_textTracks el')
      = <[Z.to_nat (track_id track) := disabled]> (map tt_mode (el_textTracks el)) ∧
    selectedTrack w' = (-1)%Z.
Proof.
  intros Ht Hh Htr Hat. apply textTracks_at_Some in Hat as [Hid Hat].
  pose proof (set_textTrack_mode_shape w (heap w) l el _ _ disabled t Hid Hat) as Hm.
  rewrite <- (world_shape w l el Hh) in Hm.
  unfold disableTrack, usingElRef.
  rewrite (unref_target_bound w l el Ht Hh), Htr.
  unfold mbind, Js_bind. rewrite Hm.
  eexists _, _. split; [done|].
  split; [reflexivity|]. cbn [el_textTracks set_el_textTracks]. split; [done|]. split; [|done].
  by rewrite map_mode_insert.
Qed.

Lemma textTracks_at_map_None (el : HTMLMediaElement) (f : TextTrack → TextTrack) (id : Z) :
  textTracks_at el id = None →
  textTracks_at (set_el_textTracks (map f (el_textTracks el)) el) id = None.
Proof.
  unfold textTracks_at. case_decide; [|done]. simpl.
  intros Hn. by rewrite lookup_map_list, Hn.
Qed.

(** X4: a reference to a track the element does not have makes the track
    operations throw.  [enableTrack(track, false)] and [disableTrack(track)]
    (truthy reference) throw before they change anything, so [selectedTrack]
    is not reset; [enableTrack(track)] with the default [disableTracks]
    throws after it has disabled every track and reset [selectedTrack] to
    -1.  The falsy reference 0 never throws in [disableTrack]: it is the
    call without argument. *)
Theorem track_operations_missing_track
  (track : TrackRef) (w : World) (l : loc) (el : HTMLMediaElement) :
  target w = Some l → heap w !! l = Some el →
  textTracks_at el (track_id track) = None →
  enableTrack track false w = (Throw, w) ∧
  disableTrack (Some track) w
    = (if truthy_track track then (Throw, w) else disableTrack None w) ∧
  ∃ w' el',
    enableTrack track true w = (Throw, w') ∧
    heap w' = <[l := el']> (heap w) ∧
    el_textTracks el' = map (set_tt_mode disabled) (el_textTracks el) ∧
    selectedTrack w' = (-1)%Z.
Proof.
  intros Ht Hh Hat.
  pose proof (unref_target_bound w l el Ht Hh) as Hu.
  pose proof (set_textTrack_mode_throws w l el (track_id track)) as Hthrow.
  split; [|split].
  - unfold enableTrack, usingElRef. rewrite Hu. unfold mbind, Js_bind, mret, Js_ret.
    by rewrite (Hthrow showing Hh Hat).
  - unfold disableTrack, usingElRef. rewrite Hu.
    destruct (truthy_track track); [|done].
    unfold mbind, Js_bind. by rewrite (Hthrow disabled Hh Hat).
  - pose proof (disableTrack_None_shape w (heap w) l el (el_textTracks el) Ht) as Hd.
    rewrite <- (world_shape w l el Hh) in Hd.
    unfold enableTrack, usingElRef. rewrite Hu. unfold mbind, Js_bind. rewrite Hd.
    eexists _, _. split.
    + rewrite (set_textTrack_mode_throws _ l
        (set_el_textTracks (map (set_tt_mode disabled) (el_textTracks el)) el)
        (track_id track) showing); [done| |].
      * simpl. apply lookup_insert_eq.
      * by apply textTracks_at_map_None.
    + simpl. done.
Qed.

(** X5: while no element is bound the controller is inert.  Native element
    events, both track operations, both reconciliation effects and the
    callback of the target watch leave the whole state as it is (the track
    operations return normally); a caller write to [currentTime] or
    [playing] only assigns the ref.  No step touches an element. *)
Theorem unbound_controller_is_inert (op : Op) (w : World) :
  target w = None →
  heap (step w op) = heap w ∧
  match op with
  | OpWriteCurrentTime v => writes (step w op) = writes w ++ [WNum currentTime v]
  | OpWritePlaying v => writes (step w op) = writes w ++ [WBool playing v]
  | OpTextTracksEvent _ _ => True
  | OpEnableTrack track disableTracks =>
      enableTrack track disableTracks w = (Normal (), w)
  | OpDisableTrack track => disableTrack track w = (Normal (), w)
  | _ => step w op = w
  end.
Proof.
  intros Ht. pose proof (unref_target_unbound w Ht) as Hu.
  destruct op; cbn [step].
  - unfold dispatch. by rewrite Hu, decide_False.
  - split; [|done]. unfold dispatch_textTracks. case_decide; [|done].
    apply (run_listeners_preserves (λ w', heap w' = heap w)); [done|].
    intros entry w' Hin Hw'. unfold textTracks_listeners in Hin.
    repeat (apply elem_of_cons in Hin as [-> | Hin]); cbn [snd];
      try (unfold rebuild_tracks; by destruct (heap w' !! el)).
    by apply elem_of_nil in Hin.
  - unfold write_currentTime, currentTime_cb.
    assert (Hu' : unref_target (assign_num currentTime v w) = None) by exact Hu.
    destruct (_ && _); by rewrite ?Hu'.
  - unfold write_playing, playing_cb.
    assert (Hu' : unref_target (assign_bool playing v w) = None) by exact Hu.
    destruct (_ && _); by rewrite ?Hu'.
  - unfold enableTrack, usingElRef. by rewrite Hu.
  - unfold disableTrack, usingElRef. by rewrite Hu.
  - unfold source_effect. rewrite Hu. by destruct document.
  - unfold track_effect. rewrite Hu. destruct document; [|done]. by destruct textTracks.
  - unfold target_cb. rewrite Hu. by destruct (listeners w).
Qed.

(** ** Further properties of the listeners *)

Lemma run_listeners_preserves_type (P : World → Prop) (table : list (string * (World → World)))
  (type : string) (w : World) :
  P w → (∀ entry w', entry ∈ table → entry.1 = type → P w' → P (entry.2 w')) →
  P (run_listeners table type w).
Proof.
  unfold run_listeners. revert w.
  induction table as [|entry table IH]; intros w Hw Hstep; simpl; [done|].
  apply IH.
  - case_decide; [|done]. apply Hstep; [left|done|done].
  - intros entry' w' Hin. apply Hstep. by right.
Qed.

Lemma frames_media_listeners_other (r : BoolRef) (entry : string * (World → World)) :
  entry ∈ media_listeners → entry.1 ∉ bool_ref_events r → frames r entry.2.
Proof.
  intros Hin Hnot. unfold media_listeners in Hin.
  repeat (apply elem_of_cons in Hin as [-> | Hin]); cbn [fst snd] in *;
    try (by apply elem_of_nil in Hin);
    destruct r; cbn [bool_ref_events] in Hnot;
    first [ by solve_frames | exfalso; apply Hnot; set_solver ].
Qed.

Lemma step_frames_unless_assigned (op : Op) (r : BoolRef) :
  may_assign op r = false → frames r (λ w, step w op).
Proof.
  intros Hm. destruct op; cbn [step may_assign] in *.
  - apply bool_decide_eq_false_1 in Hm.
    intros w. unfold dispatch. destruct (decide (unref_target w = Some el)); [|done].
    apply (run_listeners_preserves_type
      (λ w', bools w' r = bools w r ∧
             writes_to_bool r (writes w') = writes_to_bool r (writes w))); [done|].
    intros entry w' Hin Hty [H1 H2]. rewrite <- Hty in Hm.
    destruct (frames_media_listeners_other r entry Hin Hm w') as [H3 H4].
    split; congruence.
  - apply frames_dispatch_textTracks.
  - apply frames_write_currentTime.
  - apply frames_write_playing. apply bool_decide_eq_false_1 in Hm. congruence.
  - apply frames_enableTrack.
  - apply frames_disableTrack.
  - apply frames_source_effect.
  - apply frames_track_effect.
  - apply frames_target_cb.
Qed.

(** X6: a boolean ref is assigned only by the listeners of its own event
    types and, for [playing], by a caller write.  A run made of other steps
    (other native events, track-list events, writes to [currentTime], track
    operations, reconciliation effects, the target watch) leaves the ref's
    value as it is and never assigns it. *)
Theorem boolean_refs_have_their_own_writers (ops : list Op) (r : BoolRef) (w : World) :
  forallb (λ op, negb (may_assign op r)) ops = true →
  bools (run ops w) r = bools w r ∧
  writes_to_bool r (writes (run ops w)) = writes_to_bool r (writes w).
Proof.
  unfold run. revert w. induction ops as [|op ops IH]; intros w Hall; [done|].
  cbn [forallb] in Hall. apply andb_true_iff in Hall as [Hop Hall].
  apply negb_true_iff in Hop.
  destruct (step_frames_unless_assigned op r Hop w) as [H1 H2].
  destruct (IH (step w op) Hall) as [H3 H4].
  simpl. split; congruence.
Qed.

Lemma media_listeners_keep_true (r : BoolRef) (entry : string * (World → World)) (w : World) :
  r = ended ∨ r = stalled →
  entry ∈ media_listeners → bools w r = true → bools (entry.2 w) r = true.
Proof.
  intros Hr Hin Hw. unfold media_listeners in Hin.
  assert (Hfr : frames r entry.2 → bools (entry.2 w) r = true).
  { intros Hf. destruct (Hf w) as [-> _]. exact Hw. }
  repeat (apply elem_of_cons in Hin as [-> | Hin]); cbn [fst snd] in *;
    try (by apply elem_of_nil in Hin);
    destruct Hr as [-> | ->];
    first [ apply Hfr; by solve_frames | by simpl; rewrite fn_lookup_insert ].
Qed.

(** X7: no listener and no operation ever resets [ended] or [stalled]: once
    one of them is true it stays true through every run of the controller
    (the [ended] and [stalled] listeners assign [true]; nothing assigns
    [false]). *)
Theorem ended_and_stalled_are_never_reset (r : BoolRef) (ops : list Op) (w : World) :
  r = ended ∨ r = stalled →
  bools w r = true →
  bools (run ops w) r = true.
Proof.
  intros Hr. unfold run. revert w.
  induction ops as [|op ops IH]; intros w Hw; [done|].
  simpl. apply IH.
  destruct (may_assign op r) eqn:Hm.
  - destruct op; cbn [may_assign] in Hm; try discriminate.
    + cbn [step]. unfold dispatch.
      destruct (decide (unref_target w = Some el)); [|done].
      apply (run_listeners_preserves (λ w', bools w' r = true)); [done|].
      intros entry w' Hin Hw'. by apply media_listeners_keep_true.
    + apply bool_decide_eq_true_1 in Hm. by destruct Hr as [-> | ->].
  - destruct (step_frames_unless_assigned op r Hm w) as [-> _]. exact Hw.
Qed.

Lemma timeRangeToArray_prefix (timeRanges : list (number * number)) (n : nat) :
  n ≤ length timeRanges →
  fold_left (λ ranges i,
    match timeRanges !! i with
    | Some r => ranges ++ [(r.1, r.2)]
    | None => ranges
    end) (seq 0 n) [] = take n timeRanges.
Proof.
  induction n as [|n IH]; intros Hn; [done|].
  rewrite seq_S, fold_left_app, IH by lia. simpl.
  destruct (lookup_lt_is_Some_2 timeRanges n) as [[a b] Hr]; [lia|].
  rewrite Hr. by rewrite (take_S_r _ _ _ Hr).
Qed.

(** X8: [timeRangeToArray] returns the ranges of the [TimeRanges] object, all
    of them and in order; so on a bound element the [progress] listener
    replaces [buffered] by the element's ranges, and the [durationchange] and
    [ratechange] listeners copy the element's duration and playback rate,
    each with one assignment and without touching an element. *)
Theorem element_values_are_copied
  (w : World) (l : loc) (el : HTMLMediaElement) (timeRanges : list (number * number)) :
  target w = Some l → heap w !! l = Some el →
  timeRangeToArray timeRanges = timeRanges ∧
  buffered (dispatch l "progress" w) = el_buffered el ∧
  writes (dispatch l "progress" w) = writes w ++ [WBuffered (el_buffered el)] ∧
  nums (dispatch l "durationchange" w) duration = el_duration el ∧
  writes (dispatch l "durationchange" w) = writes w ++ [WNum duration (el_duration el)] ∧
  nums (dispatch l "ratechange" w) rate = el_playbackRate el ∧
  writes (dispatch l "ratechange" w) = writes w ++ [WNum rate (el_playbackRate el)].
Proof.
  intros Ht Hh.
  assert (Hid : ∀ trs : list (number * number), timeRangeToArray trs = trs).
  { intros trs. unfold timeRangeToArray.
    rewrite timeRangeToArray_prefix by done. by rewrite take_ge. }
  split; [apply Hid|].
  rewrite !(dispatch_bound w l el _ Ht Hh).
  unfold run_listeners. simpl. unfold with_target.
  rewrite (target_el_bound w l el Ht Hh). simpl.
  rewrite !fn_lookup_insert, Hid. done.
Qed.

(** *** Picture in picture with support *)




(** *** What only the target watch and the caller change *)

Section Kept.

(** An observation of the world that no assignment to a ref, no change of an
    element and no suppression flag affects. *)
Context {X : Type} (proj : World → X).
Hypothesis proj_set_heap : ∀ h w, proj (set_heap h w) = proj w.
Hypothesis proj_set_ignoreCurrentTime : ∀ b w, proj (set_ignoreCurrentTime b w) = proj w.
Hypothesis proj_set_ignorePlaying : ∀ b w, proj (set_ignorePlaying b w) = proj w.
Hypothesis proj_assign_num : ∀ r v w, proj (assign_num r v w) = proj w.
Hypothesis proj_assign_bool : ∀ r v w, proj (assign_bool r v w) = proj w.
Hypothesis proj_assign_buffered : ∀ v w, proj (assign_buffered v w) = proj w.
Hypothesis proj_assign_tracks : ∀ v w, proj (assign_tracks v w) = proj w.
Hypothesis proj_assign_selectedTrack : ∀ v w, proj (assign_selectedTrack v w) = proj w.

Lemma kept_update_el (l : loc) (f : HTMLMediaElement → HTMLMediaElement) (w : World) :
  proj (update_el l f w) = proj w.
Proof. apply proj_set_heap. Qed.

Lemma kept_fold_update_el {A : Type} (l : loc) (F : A → HTMLMediaElement → HTMLMediaElement)
  (xs : list A) (w : World) :
  proj (fold_left (λ w x, update_el l (F x) w) xs w) = proj w.
Proof.
  revert w. induction xs as [|x xs IH]; intros w; simpl; [done|].
  by rewrite IH, kept_update_el.
Qed.

Lemma kept_forEach_add_track (l : loc) (tts : list UseMediaTextTrackSource) (i : nat) (w : World) :
  proj (forEach_from (add_track l) i tts w) = proj w.
Proof.
  revert i w. induction tts as [|d tts IH]; intros i w; simpl; [done|].
  rewrite IH. unfold add_track. rewrite kept_update_el.
  destruct (track_default _); [apply proj_assign_selectedTrack|done].
Qed.

Lemma kept_set_textTrack_mode (l : loc) (id : Z) (m : TextTrackMode) (w : World) :
  proj (set_textTrack_mode l id m w).2 = proj w.
Proof.
  unfold set_textTrack_mode. destruct (heap w !! l) as [el|]; [|done].
  destruct (textTracks_at el id); [apply kept_update_el|done].
Qed.

Lemma kept_for_range (body : nat → Js unit) (count : nat) :
  (∀ i w, proj (body i w).2 = proj w) →
  ∀ start w, proj (for_range start count body w).2 = proj w.
Proof.
  intros Hb. induction count as [|count IH]; intros start w; [done|].
  cbn [for_range]. unfold mbind, Js_bind.
  specialize (Hb start w). destruct (body start w) as [[[]|] w']; simpl in *; [|done].
  by rewrite IH.
Qed.

Lemma kept_disableTrack (track : option TrackRef) (w : World) :
  proj (disableTrack track w).2 = proj w.
Proof.
  unfold disableTrack, usingElRef. destruct (unref_target w) as [l|]; [|done].
  unfold mbind, Js_bind.
  assert (Hall : proj (disable_all l w).2 = proj w).
  { unfold disable_all.
    apply (kept_for_range (λ i, set_textTrack_mode l (Z.of_nat i) disabled)).
    intros i w'. apply kept_set_textTrack_mode. }
  pose proof (kept_set_textTrack_mode l) as Hone.
  destruct track as [t|]; [destruct (truthy_track t)|].
  - specialize (Hone (track_id t) disabled w).
    destruct (set_textTrack_mode l (track_id t) disabled w) as [[[]|] w']; [|done].
    unfold lift. simpl in *. by rewrite proj_assign_selectedTrack.
  - destruct (disable_all l w) as [[[]|] w']; [|done].
    unfold lift. simpl in *. by rewrite proj_assign_selectedTrack.
  - destruct (disable_all l w) as [[[]|] w']; [|done].
    unfold lift. simpl in *. by rewrite proj_assign_selectedTrack.
Qed.

Lemma kept_enableTrack (track : TrackRef) (disableTracks : bool) (w : World) :
  proj (enableTrack track disableTracks w).2 = proj w.
Proof.
  unfold enableTrack, usingElRef. destruct (unref_target w) as [l|]; [|done].
  unfold mbind, Js_bind.
  assert (H1 : proj ((if disableTracks then disableTrack None else mret ()) w).2 = proj w).
  { destruct disableTracks; [apply kept_disableTrack|done]. }
  destruct ((if disableTracks then disableTrack None else mret ()) w) as [[[]|] w1];
    simpl in *; [|done].
  pose proof (kept_set_textTrack_mode l (track_id track) showing w1) as H2.
  destruct (set_textTrack_mode l (track_id track) showing w1) as [[[]|] w2]; simpl in *;
    [|congruence].
  unfold lift. simpl. rewrite proj_assign_selectedTrack. congruence.
Qed.

Lemma kept_media_listeners (entry : string * (World → World)) (w : World) :
  entry ∈ media_listeners → proj (entry.2 w) = proj w.
Proof.
  intros Hin. unfold media_listeners in Hin.
  repeat (apply elem_of_cons in Hin as [-> | Hin]); cbn [snd];
    try (by apply elem_of_nil in Hin);
    try (unfold with_target; destruct (target_el _));
    try done; try apply proj_assign_num; try apply proj_assign_bool;
    try apply proj_assign_buffered.
  - unfold ignoreCurrentTimeUpdates, with_target, write_currentTime.
    rewrite proj_set_ignoreCurrentTime.
    destruct (target_el _); [|apply proj_set_ignoreCurrentTime].
    simpl. rewrite andb_false_r.
    by rewrite proj_assign_num, proj_set_ignoreCurrentTime.
  - unfold ignorePlayingUpdates, write_playing. rewrite proj_set_ignorePlaying.
    simpl. rewrite andb_false_r. by rewrite proj_assign_bool, proj_set_ignorePlaying.
  - unfold ignorePlayingUpdates, write_playing. rewrite proj_set_ignorePlaying.
    simpl. rewrite andb_false_r. by rewrite proj_assign_bool, proj_set_ignorePlaying.
Qed.

(** Every step but the callback of the target watch keeps the observation. *)
Lemma kept_step (op : Op) (w : World) :
  op ≠ OpTargetCb → proj (step w op) = proj w.
Proof.
  intros Hop. destruct op; cbn [step]; try done.
  - unfold dispatch. destruct (decide (unref_target w = Some el)); [|done].
    apply (run_listeners_preserves (λ w', proj w' = proj w)); [done|].
    intros entry w' Hin Hw'. by rewrite kept_media_listeners.
  - unfold dispatch_textTracks. destruct (decide (listeners w = Some el)); [|done].
    apply (run_listeners_preserves (λ w', proj w' = proj w)); [done|].
    intros entry w' Hin Hw'. unfold textTracks_listeners in Hin.
    repeat (apply elem_of_cons in Hin as [-> | Hin]); cbn [snd];
      try (by apply elem_of_nil in Hin);
      unfold rebuild_tracks; destruct (heap w' !! el); try done;
      by rewrite proj_assign_tracks.
  - unfold write_currentTime. destruct (_ && _); [|apply proj_assign_num].
    unfold currentTime_cb. destruct (unref_target _); [|apply proj_assign_num].
    by rewrite kept_update_el, proj_assign_num.
  - unfold write_playing. destruct (_ && _); [|apply proj_assign_bool].
    unfold playing_cb. destruct (unref_target _); [|apply proj_assign_bool].
    by rewrite kept_update_el, proj_assign_bool.
  - apply kept_enableTrack.
  - apply kept_disableTrack.
  - unfold source_effect. destruct document; [|done].
    destruct (unref_target w) as [l|]; [|done]. destruct (negb _); [done|].
    rewrite kept_update_el.
    rewrite (kept_fold_update_el l (λ s, appendChild (SourceNode (new_source s)))).
    by rewrite kept_update_el.
  - unfold track_effect. destruct document; [|done].
    destruct textTracks as [tts|]; [|done].
    destruct (unref_target w) as [l|]; [|done]. destruct (bool_decide _); [done|].
    by rewrite kept_forEach_add_track, kept_update_el.
Qed.

End Kept.

Lemma listeners_step (op : Op) (w : World) (l : loc) :
  listeners w = Some l → listeners (step w op) = Some l.
Proof.
  intros Hl. destruct op; try (by rewrite (kept_step listeners)).
  cbn [step]. unfold target_cb. by rewrite Hl.
Qed.

Lemma target_step (op : Op) (w : World) : target (step w op) = target w.
Proof.
  destruct op; try (by rewrite (kept_step target)).
  cbn [step]. unfold target_cb. destruct (listeners w); [done|].
  by destruct (unref_target w).
Qed.

Lemma target_fold_set_target (ts : list (option loc)) (w : World) :
  target (fold_left (λ w t, set_target t w) ts w) = default (target w) (last ts) ∧
  heap (fold_left (λ w t, set_target t w) ts w) = heap w ∧
  listeners (fold_left (λ w t, set_target t w) ts w) = listeners w.
Proof.
  revert w. induction ts as [|t ts IH]; intros w; [done|].
  cbn [fold_left]. destruct (IH (set_target t w)) as (H1 & H2 & H3).
  rewrite H1, H2, H3. split; [|done].
  rewrite last_cons. by destruct (last ts).
Qed.

Lemma listeners_rebind_tick (ts : list (option loc)) (w : World) (l : loc) :
  listeners w = Some l → listeners (rebind_tick ts w) = Some l.
Proof.
  intros Hl. unfold rebind_tick.
  destruct (target_fold_set_target ts w) as (_ & _ & H3).
  destruct (decide _); [congruence|].
  unfold target_cb. rewrite H3, Hl. congruence.
Qed.

Lemma listeners_live (turns : list Turn) (w : World) (l : loc) :
  listeners w = Some l → listeners (live turns w) = Some l.
Proof.
  unfold live. revert w. induction turns as [|turn turns IH]; intros w Hl; [done|].
  simpl. apply IH.
  destruct turn as [ts|op]; [by apply listeners_rebind_tick|by apply listeners_step].
Qed.

Lemma listeners_run_without_cb (ops : list Op) (w : World) :
  forallb not_target_cb ops = true →
  listeners (run ops w) = listeners w ∧ target (run ops w) = target w.
Proof.
  unfold run. revert w. induction ops as [|op ops IH]; intros w Hall; [done|].
  cbn [forallb] in Hall. apply andb_true_iff in Hall as [Hop Hall].
  simpl. destruct (IH (step w op) Hall) as [H1 H2]. rewrite H1, H2.
  split; [|apply target_step].
  apply (kept_step listeners); try done. by destruct op.
Qed.

(** X10: the three track-list listeners are registered by the callback of
    the nested watch, which runs only at the flush of a tick that changed
    the target.  So no step of the controller registers them while the
    target stays as it was at creation, bound or not; the first tick that
    ends with an element bound, other than the one the tick started with,
    registers them on that element, whatever the target held earlier in the
    tick; and from then on they stay there through every later turn: the
    callback does nothing more and track-list events of any other element
    are ignored. *)
Theorem track_list_listeners_registration
  (w : World) (steps : list Op) (ts : list (option loc)) (l l2 : loc)
  (el : HTMLMediaElement) (turns : list Turn) (type : string) :
  listeners w = None →
  forallb not_target_cb steps = true →
  last ts = Some (Some l) → target w ≠ Some l →
  heap (run steps w) !! l = Some el →
  l2 ≠ l →
  listeners (run steps w) = None ∧
  listeners (rebind_tick ts (run steps w)) = Some l ∧
  target (rebind_tick ts (run steps w)) = Some l ∧
  listeners (live turns (rebind_tick ts (run steps w))) = Some l ∧
  target_cb (live turns (rebind_tick ts (run steps w)))
    = live turns (rebind_tick ts (run steps w)) ∧
  dispatch_textTracks l2 type (live turns (rebind_tick ts (run steps w)))
    = live turns (rebind_tick ts (run steps w)).
Proof.
  intros Hl Hsteps Hlast Hne Hh Hl2.
  destruct (listeners_run_without_cb steps w Hsteps) as [Hl1 Ht1].
  rewrite Hl in Hl1.
  destruct (target_fold_set_target ts (run steps w)) as (Ht2 & Hh2 & Hl2').
  rewrite Hlast in Ht2. simpl in Ht2.
  assert (Hreg : listeners (rebind_tick ts (run steps w)) = Some l ∧
                 target (rebind_tick ts (run steps w)) = Some l).
  { unfold rebind_tick. rewrite decide_False by (rewrite Ht2, Ht1; congruence).
    unfold target_cb. rewrite Hl2', Hl1.
    rewrite (unref_target_bound _ l el Ht2) by (by rewrite Hh2).
    done. }
  destruct Hreg as [Hreg Htgt].
  pose proof (listeners_live turns _ l Hreg) as Hstay.
  split; [exact Hl1|]. split; [exact Hreg|]. split; [exact Htgt|].
  split; [exact Hstay|]. split.
  - unfold target_cb at 1. by rewrite Hstay.
  - unfold dispatch_textTracks. rewrite Hstay. rewrite decide_False; [done|congruence].
Qed.

(** ** Further properties of the reconciliation effects *)

(** Induction on nodes with the hypothesis for every child. *)
Fixpoint Node_nested_ind (P : Node → Prop)
  (Hsource : ∀ s, P (SourceNode s)) (Htrack : ∀ t, P (TrackNode t))
  (Helement : ∀ tag children, Forall P children → P (ElementNode tag children))
  (n : Node) : P n :=
  match n with
  | SourceNode s => Hsource s
  | TrackNode t => Htrack t
  | ElementNode tag children =>
      Helement tag children
        ((fix go (ns : list Node) : Forall P ns :=
            match ns with
            | [] => @List.Forall_nil _ P
            | c :: ns' =>
                @List.Forall_cons _ P c ns' (Node_nested_ind P Hsource Htrack Helement c) (go ns')
            end) children)
  end.

Section Removal.

(** A selector that looks at the kind of a node only, as [is_source] and
    [is_track] do. *)
Variable p : Node → bool.
Hypothesis p_kind : ∀ n, p (remove_all p n) = p n.

Lemma remove_descendants_cons (n : Node) (ns : list Node) :
  remove_descendants p (n :: ns)
  = (if p n then [] else [remove_all p n]) ++ remove_descendants p ns.
Proof. unfold remove_descendants. simpl. rewrite p_kind. by destruct (p n). Qed.

Lemma remove_descendants_app (ns1 ns2 : list Node) :
  remove_descendants p (ns1 ++ ns2) = remove_descendants p ns1 ++ remove_descendants p ns2.
Proof.
  induction ns1 as [|n ns1 IH]; [done|].
  rewrite <- app_comm_cons, !remove_descendants_cons, IH. by rewrite app_assoc.
Qed.

Lemma remove_all_element (tag : string) (children : list Node) :
  remove_all p (ElementNode tag children) = ElementNode tag (remove_descendants p children).
Proof. done. Qed.

Lemma remove_descendants_idem_Forall (ns : list Node) :
  Forall (λ n, remove_all p (remove_all p n) = remove_all p n) ns →
  remove_descendants p (remove_descendants p ns) = remove_descendants p ns.
Proof.
  induction 1 as [|n ns Hn _ IH]; [done|].
  rewrite remove_descendants_cons. destruct (p n) eqn:Hp; [exact IH|].
  cbn [app]. rewrite remove_descendants_cons, p_kind, Hp, Hn, IH. done.
Qed.

Lemma remove_all_idem (n : Node) : remove_all p (remove_all p n) = remove_all p n.
Proof.
  induction n as [s|t|tag children IH] using Node_nested_ind; [done|done|].
  rewrite !remove_all_element. f_equal. by apply remove_descendants_idem_Forall.
Qed.

Lemma remove_descendants_idem (ns : list Node) :
  remove_descendants p (remove_descendants p ns) = remove_descendants p ns.
Proof.
  apply remove_descendants_idem_Forall, Forall_forall. intros n _. apply remove_all_idem.
Qed.

Lemma has_match_removed_Forall (ns : list Node) :
  Forall (λ n, has_match p (remove_all p n) = p n) ns →
  existsb (has_match p) (remove_descendants p ns) = false.
Proof.
  induction 1 as [|n ns Hn _ IH]; [done|].
  rewrite remove_descendants_cons. destruct (p n) eqn:Hp; [exact IH|].
  cbn [app existsb]. by rewrite Hn, IH.
Qed.

Lemma has_match_remove_all (n : Node) : has_match p (remove_all p n) = p n.
Proof.
  induction n as [s|t|tag children IH] using Node_nested_ind.
  - simpl. apply orb_false_r.
  - simpl. apply orb_false_r.
  - rewrite remove_all_element. cbn [has_match].
    rewrite (has_match_removed_Forall children IH), orb_false_r.
    by rewrite <- (p_kind (ElementNode tag children)), remove_all_element.
Qed.

Lemma has_match_removed (ns : list Node) :
  existsb (has_match p) (remove_descendants p ns) = false.
Proof.
  apply has_match_removed_Forall, Forall_forall. intros n _. apply has_match_remove_all.
Qed.

End Removal.

Lemma is_source_kind (n : Node) : is_source (remove_all is_source n) = is_source n.
Proof. by destruct n. Qed.

Lemma is_track_kind (n : Node) : is_track (remove_all is_track n) = is_track n.
Proof. by destruct n. Qed.

Lemma remove_descendants_new_sources (xs : list UseMediaSource) :
  remove_descendants is_source (map (λ s, SourceNode (new_source s)) xs) = [].
Proof.
  induction xs as [|x xs IH]; [done|].
  cbn [map]. by rewrite (remove_descendants_cons is_source is_source_kind).
Qed.

Lemma remove_descendants_new_tracks (xs : list UseMediaTextTrackSource) :
  remove_descendants is_track (map (λ x, TrackNode (new_track x)) xs) = [].
Proof.
  induction xs as [|x xs IH]; [done|].
  cbn [map]. by rewrite (remove_descendants_cons is_track is_track_kind).
Qed.

(** X11: source reconciliation rebuilds wholesale and is idempotent on the
    DOM.  One run with a truthy [src] leaves the old children without any
    source element at any depth, in their order, followed by the new source
    children; a second run with the same [src] leaves exactly the same
    children and calls [load()] once more. *)
Theorem source_effect_rerun
  (d : Document) (src : SrcOption) (w : World) (l : loc) (el : HTMLMediaElement) :
  target w = Some l → heap w !! l = Some el → truthy_src src = true →
  ∃ el1 el2,
    heap (source_effect (Some d) src w) !! l = Some el1 ∧
    heap (source_effect (Some d) src (source_effect (Some d) src w)) !! l = Some el2 ∧
    el_children el1
      = remove_descendants is_source (el_children el)
        ++ map (λ s, SourceNode (new_source s)) (merge_sources src) ∧
    existsb (has_match is_source) (remove_descendants is_source (el_children el)) = false ∧
    el_children el2 = el_children el1 ∧
    el_calls el1 = el_calls el ++ [Load] ∧
    el_calls el2 = el_calls el ++ [Load; Load].
Proof.
  intros Ht Hh Hs.
  pose proof (source_effect_bound d src w l el Ht Hh Hs) as H1.
  set (el1 := call Load (fold_left (λ e s, appendChild (SourceNode (new_source s)) e)
                (merge_sources src)
                (set_el_children (remove_descendants is_source (el_children el)) el))) in *.
  assert (Hh1 : heap (source_effect (Some d) src w) !! l = Some el1).
  { rewrite H1. simpl. apply lookup_insert_eq. }
  assert (Ht1 : target (source_effect (Some d) src w) = Some l) by (by rewrite H1).
  pose proof (source_effect_bound d src _ l el1 Ht1 Hh1 Hs) as H2.
  assert (Hc1 : el_children el1
                = remove_descendants is_source (el_children el)
                  ++ map (λ s, SourceNode (new_source s)) (merge_sources src)).
  { unfold el1. cbn [el_children call].
    by rewrite (fold_appendChild_children (λ s, SourceNode (new_source s))). }
  assert (Hk1 : el_calls el1 = el_calls el ++ [Load]).
  { unfold el1. cbn [el_calls call].
    by rewrite (fold_appendChild_calls (λ s, SourceNode (new_source s))). }
  clearbody el1.
  eexists el1, _. split; [exact Hh1|]. split.
  { rewrite H2. simpl. apply lookup_insert_eq. }
  split; [exact Hc1|]. split; [apply (has_match_removed is_source is_source_kind)|].
  split; [|split; [exact Hk1|]].
  - cbn [el_children call].
    rewrite (fold_appendChild_children (λ s, SourceNode (new_source s))).
    cbn [el_children set_el_children]. rewrite Hc1.
    rewrite (remove_descendants_app is_source is_source_kind).
    rewrite (remove_descendants_idem is_source is_source_kind).
    by rewrite remove_descendants_new_sources, app_nil_r.
  - cbn [el_calls call].
    rewrite (fold_appendChild_calls (λ s, SourceNode (new_source s))).
    cbn [el_calls set_el_children]. rewrite Hk1. by rewrite <- app_assoc.
Qed.

Lemma omap_track_without_sources (ns : list Node) :
  omap (λ n, match n with TrackNode t => Some t | _ => None end)
    (remove_descendants is_source ns)
  = omap (λ n, match n with TrackNode t => Some t | _ => None end) ns.
Proof.
  induction ns as [|n ns IH]; [done|].
  rewrite (remove_descendants_cons is_source is_source_kind), omap_app, IH.
  by destruct n.
Qed.

Lemma omap_source_without_tracks (ns : list Node) :
  omap (λ n, match n with SourceNode s => Some s | _ => None end)
    (remove_descendants is_track ns)
  = omap (λ n, match n with SourceNode s => Some s | _ => None end) ns.
Proof.
  induction ns as [|n ns IH]; [done|].
  rewrite (remove_descendants_cons is_track is_track_kind), omap_app, IH.
  by destruct n.
Qed.

Lemma omap_track_new_sources (xs : list UseMediaSource) :
  omap (λ n, match n with TrackNode t => Some t | _ => None end)
    (map (λ s, SourceNode (new_source s)) xs) = [].
Proof. induction xs as [|x xs IH]; [done|]. exact IH. Qed.

Lemma omap_source_new_tracks (xs : list UseMediaTextTrackSource) :
  omap (λ n, match n with SourceNode s => Some s | _ => None end)
    (map (λ x, TrackNode (new_track x)) xs) = [].
Proof. induction xs as [|x xs IH]; [done|]. exact IH. Qed.

Lemma fold_appendChild_currentTime {A : Type} (mk : A → Node) (xs : list A)
  (el : HTMLMediaElement) :
  el_currentTime (fold_left (λ e x, appendChild (mk x) e) xs el) = el_currentTime el.
Proof.
  revert el. induction xs as [|x xs IH]; intros el; simpl; [done|]. by rewrite IH.
Qed.

(** The track effect on a bound element with a non-empty list, in closed
    form. *)
Lemma track_effect_nonempty (d : Document) (x : UseMediaTextTrackSource)
  (tts : list UseMediaTextTrackSource) (w : World) (l : loc) (el : HTMLMediaElement) :
  target w = Some l → heap w !! l = Some el →
  target (track_effect (Some d) (Some (x :: tts)) w) = Some l ∧
  heap (track_effect (Some d) (Some (x :: tts)) w)
    = <[l := fold_left (λ e y, appendChild (TrackNode (new_track y)) e) (x :: tts)
              (set_el_children (remove_descendants is_track (el_children el)) el)]> (heap w) ∧
  selectedTrack (track_effect (Some d) (Some (x :: tts)) w)
    = from_option Z.of_nat (selectedTrack w) (last (default_positions (x :: tts))).
Proof.
  intros Ht Hh. unfold track_effect.
  rewrite (unref_target_bound w l el Ht Hh).
  rewrite bool_decide_eq_false_2 by done.
  set (w1 := update_el l _ w).
  assert (Hh1 : heap w1 !! l
                = Some (set_el_children (remove_descendants is_track (el_children el)) el)).
  { unfold w1. rewrite (update_el_insert w l _ el Hh). simpl. apply lookup_insert_eq. }
  split; [|split].
  - by rewrite (kept_forEach_add_track target).
  - rewrite (forEach_add_track_heap l _ 0 w1 _ Hh1).
    unfold w1. rewrite (update_el_insert w l _ el Hh). simpl. by rewrite insert_insert_eq.
  - by rewrite forEach_add_track_selectedTrack.
Qed.

(** X12: the two effects treat an empty list differently, and the defaults
    are inert.  An empty or undefined [tracks] makes the track effect return
    at its guard, so existing track children stay; an empty [src] array is
    truthy, so the source effect removes every source element, adds none and
    calls [load()].  With the default options (['']  and [[]]) neither effect
    changes anything, for any document and target. *)
Theorem empty_lists_and_defaults
  (document : option Document) (d : Document) (w : World) (l : loc) (el : HTMLMediaElement) :
  target w = Some l → heap w !! l = Some el →
  track_effect document (Some []) w = w ∧
  track_effect document None w = w ∧
  source_effect document defaultOptions_src w = w ∧
  track_effect document (Some defaultOptions_tracks) w = w ∧
  ∃ el',
    heap (source_effect (Some d) (SrcArray []) w) !! l = Some el' ∧
    el_children el' = remove_descendants is_source (el_children el) ∧
    source_children el' = [] ∧
    track_children el' = track_children el ∧
    el_calls el' = el_calls el ++ [Load].
Proof.
  intros Ht Hh.
  assert (Hempty : track_effect document (Some []) w = w).
  { unfold track_effect. destruct document; [|done]. by destruct (unref_target w). }
  split; [exact Hempty|]. split.
  { unfold track_effect. destruct document; [|done]. done. }
  split.
  { unfold source_effect. destruct document; [|done]. by destruct (unref_target w). }
  split; [exact Hempty|].
  rewrite (source_effect_bound d (SrcArray []) w l el Ht Hh) by done.
  eexists. split; [simpl; apply lookup_insert_eq|].
  unfold source_children, track_children. simpl.
  rewrite omap_source_removed, omap_track_without_sources. done.
Qed.

(** X13: the two effects do not disturb each other's children or the
    controller's state.  A source reconciliation keeps the track children of
    the element and assigns no ref; a track reconciliation keeps the source
    children and never calls [load()], [play()] or [pause()] and never
    seeks. *)
Theorem effects_are_independent
  (d : Document) (src : SrcOption) (tts : list UseMediaTextTrackSource)
  (w : World) (l : loc) (el : HTMLMediaElement) :
  target w = Some l → heap w !! l = Some el →
  (∃ el1,
     heap (source_effect (Some d) src w) !! l = Some el1 ∧
     track_children el1 = track_children el ∧
     writes (source_effect (Some d) src w) = writes w ∧
     selectedTrack (source_effect (Some d) src w) = selectedTrack w) ∧
  (∃ el2,
     heap (track_effect (Some d) (Some tts) w) !! l = Some el2 ∧
     source_children el2 = source_children el ∧
     el_calls el2 = el_calls el ∧
     el_currentTime el2 = el_currentTime el).
Proof.
  intros Ht Hh. split.
  - destruct (truthy_src src) eqn:Hs.
    + rewrite (source_effect_bound d src w l el Ht Hh Hs).
      eexists. split; [simpl; apply lookup_insert_eq|].
      split; [|done].
      unfold track_children. cbn [el_children call].
      rewrite (fold_appendChild_children (λ s, SourceNode (new_source s))).
      cbn [el_children set_el_children].
      by rewrite omap_app, omap_track_without_sources, omap_track_new_sources, app_nil_r.
    + exists el. unfold source_effect. rewrite Hs. simpl.
      by rewrite (unref_target_bound w l el Ht Hh).
  - destruct tts as [|x tts].
    + exists el. unfold track_effect. by rewrite (unref_target_bound w l el Ht Hh).
    + destruct (track_effect_nonempty d x tts w l el Ht Hh) as (_ & Hheap & _).
      rewrite Hheap. eexists. split; [apply lookup_insert_eq|].
      split; [|split].
      * unfold source_children.
        rewrite (fold_appendChild_children (λ y, TrackNode (new_track y))).
        cbn [el_children set_el_children].
        by rewrite omap_app, omap_source_without_tracks, omap_source_new_tracks, app_nil_r.
      * by rewrite (fold_appendChild_calls (λ y, TrackNode (new_track y))).
      * by rewrite (fold_appendChild_currentTime (λ y, TrackNode (new_track y))).
Qed.

(** X14: track reconciliation rebuilds wholesale and is idempotent.  One run
    with a non-empty list leaves the old children without any track element
    at any depth, followed by the new track children; a second run with the
    same list leaves exactly the same children and the same
    [selectedTrack]. *)
Theorem track_effect_rerun
  (d : Document) (x : UseMediaTextTrackSource) (tts : list UseMediaTextTrackSource)
  (w : World) (l : loc) (el : HTMLMediaElement) :
  target w = Some l → heap w !! l = Some el →
  ∃ el1 el2,
    heap (track_effect (Some d) (Some (x :: tts)) w) !! l = Some el1 ∧
    heap (track_effect (Some d) (Some (x :: tts)) (track_effect (Some d) (Some (x :: tts)) w)) !! l
      = Some el2 ∧
    el_children el1
      = remove_descendants is_track (el_children el)
        ++ map (λ y, TrackNode (new_track y)) (x :: tts) ∧
    existsb (has_match is_track) (remove_descendants is_track (el_children el)) = false ∧
    el_children el2 = el_children el1 ∧
    selectedTrack (track_effect (Some d) (Some (x :: tts)) (track_effect (Some d) (Some (x :: tts)) w))
      = selectedTrack (track_effect (Some d) (Some (x :: tts)) w).
Proof.
  intros Ht Hh.
  destruct (track_effect_nonempty d x tts w l el Ht Hh) as (Ht1 & Hheap1 & Hsel1).
  set (el1 := fold_left (λ e y, appendChild (TrackNode (new_track y)) e) (x :: tts)
                (set_el_children (remove_descendants is_track (el_children el)) el)) in *.
  assert (Hh1 : heap (track_effect (Some d) (Some (x :: tts)) w) !! l = Some el1).
  { rewrite Hheap1. apply lookup_insert_eq. }
  assert (Hc1 : el_children el1
                = remove_descendants is_track (el_children el)
                  ++ map (λ y, TrackNode (new_track y)) (x :: tts)).
  { unfold el1. by rewrite (fold_appendChild_children (λ y, TrackNode (new_track y))). }
  clearbody el1.
  destruct (track_effect_nonempty d x tts _ l el1 Ht1 Hh1) as (_ & Hheap2 & Hsel2).
  eexists el1, _. split; [exact Hh1|]. split; [rewrite Hheap2; apply lookup_insert_eq|].
  split; [exact Hc1|]. split; [apply (has_match_removed is_track is_track_kind)|].
  split.
  - rewrite (fold_appendChild_children (λ y, TrackNode (new_track y))).
    cbn [el_children set_el_children]. rewrite Hc1.
    rewrite (remove_descendants_app is_track is_track_kind).
    rewrite (remove_descendants_idem is_track is_track_kind).
    by rewrite remove_descendants_new_tracks, app_nil_r.
  - rewrite Hsel2, Hsel1. by destruct (last (default_positions (x :: tts))).
Qed.

Lemma tracksToArray_modes (ts : list TextTrack) :
  map umt_mode (tracksToArray ts) = map tt_mode ts.
Proof.
  apply list_eq. intros i. rewrite !lookup_map_list, tracksToArray_lookup.
  by destruct (ts !! i).
Qed.

(** X15: the [tracks] ref follows the track operations through the [change]
    listener.  With the listeners registered on the bound element, after
    [enableTrack(track)] (default [disableTracks], existing track) and the
    track list's [change] event, [tracks] has one entry per native track
    with ids 0, 1, ..., the entry at [selectedTrack] is the one that is
    showing, and every other entry is disabled. *)
Theorem tracks_ref_follows_enableTrack
  (track : TrackRef) (w : World) (l : loc) (el : HTMLMediaElement) (t : TextTrack) :
  target w = Some l → heap w !! l = Some el → listeners w = Some l →
  textTracks_at el (track_id track) = Some t →
  map umt_mode (tracks (dispatch_textTracks l "change" (enableTrack track true w).2))
    = <[Z.to_nat (track_id track) := showing]> (replicate (length (el_textTracks el)) disabled) ∧
  map umt_id (tracks (dispatch_textTracks l "change" (enableTrack track true w).2))
    = map Z.of_nat (seq 0 (length (el_textTracks el))) ∧
  selectedTrack (dispatch_textTracks l "change" (enableTrack track true w).2) = track_id track ∧
  umt_mode <$>
    tracks (dispatch_textTracks l "change" (enableTrack track true w).2)
      !! Z.to_nat (selectedTrack (dispatch_textTracks l "change" (enableTrack track true w).2))
    = Some showing.
Proof.
  intros Ht Hh Hl Hat. apply textTracks_at_Some in Hat as [Hid Hat].
  pose proof (enableTrack_shape track w (heap w) l el (el_textTracks el) t Ht Hid Hat) as He.
  rewrite <- (world_shape w l el Hh) in He. rewrite He. cbn [snd].
  set (ts' := <[Z.to_nat (track_id track) := set_tt_mode showing t]>
                (map (set_tt_mode disabled) (el_textTracks el))).
  set (w1 := assign_selectedTrack (track_id track) _).
  assert (Hd : dispatch_textTracks l "change" w1 = assign_tracks (tracksToArray ts') w1).
  { unfold dispatch_textTracks. rewrite decide_True by exact Hl.
    unfold run_listeners. simpl. unfold rebuild_tracks. simpl.
    by rewrite lookup_insert_eq. }
  rewrite Hd. cbn [tracks assign_tracks selectedTrack].
  assert (Hm : map umt_mode (tracksToArray ts')
               = <[Z.to_nat (track_id track) := showing]>
                   (replicate (length (el_textTracks el)) disabled)).
  { rewrite tracksToArray_modes. unfold ts'.
    by rewrite map_mode_insert, map_mode_disabled. }
  split; [exact Hm|]. split.
  { rewrite tracksToArray_ids. unfold ts'. by rewrite length_insert, length_map. }
  split; [done|].
  unfold w1. cbn [selectedTrack assign_selectedTrack].
  rewrite <- lookup_map_list, Hm.
  apply list_lookup_insert_eq. rewrite length_replicate.
  by apply lookup_lt_Some in Hat.
Qed.

(** ** The options effect *)

Lemma apply_options_fields (o : ScalarOptions) (vol : number) (a : MediaAttributes) :
  apply_options o vol a
  = mkAttributes
      (default (at_loop a) (opt_loop o))
      (default (at_controls a) (opt_controls o))
      (default (at_muted a) (opt_muted o))
      (default (at_preload a) (preload_string <$> opt_preload o))
      (default (at_autoplay a) (opt_autoplay o))
      (default (at_poster a) (opt_poster o))
      (default (at_playsInline a) (opt_playsinline o))
      (default (at_autoPictureInPicture a) (opt_autoPictureInPicture o))
      vol.
Proof.
  destruct o as [[?|] [?|] [?|] [?|] [?|] [?|] [?|] [?|]]; reflexivity.
Qed.

(** X16: on a bound element the options effect assigns every attribute whose
    option is defined, leaves the attributes whose option is undefined as
    they are (an undefined option does not stop the ones after it), and
    always assigns the [volume] ref to [el.volume]; it touches no other
    element and nothing of the controller's state. *)
Theorem options_effect_field_by_field
  (o : ScalarOptions) (pg : Page) (l : loc) (el : HTMLMediaElement) :
  target (page_world pg) = Some l → heap (page_world pg) !! l = Some el →
  page_world (options_effect o pg) = page_world pg ∧
  (∀ l', l' ≠ l → page_attributes (options_effect o pg) l' = page_attributes pg l') ∧
  page_attributes (options_effect o pg) l
  = mkAttributes
      (default (at_loop (page_attributes pg l)) (opt_loop o))
      (default (at_controls (page_attributes pg l)) (opt_controls o))
      (default (at_muted (page_attributes pg l)) (opt_muted o))
      (default (at_preload (page_attributes pg l)) (preload_string <$> opt_preload o))
      (default (at_autoplay (page_attributes pg l)) (opt_autoplay o))
      (default (at_poster (page_attributes pg l)) (opt_poster o))
      (default (at_playsInline (page_attributes pg l)) (opt_playsinline o))
      (default (at_autoPictureInPicture (page_attributes pg l)) (opt_autoPictureInPicture o))
      (nums (page_world pg) volume).
Proof.
  intros Ht Hh. unfold options_effect.
  rewrite (unref_target_bound _ l el Ht Hh). cbn [page_world page_attributes].
  split; [done|]. split.
  - intros l' Hne. by rewrite fn_lookup_insert_ne.
  - by rewrite fn_lookup_insert, apply_options_fields.
Qed.

Lemma apply_options_later (o1 o2 : ScalarOptions) (vol : number) (a : MediaAttributes) :
  apply_options o2 vol (apply_options o1 vol a) = apply_options (later_options o1 o2) vol a.
Proof.
  rewrite !apply_options_fields. unfold later_options. cbn.
  f_equal; match goal with |- context [?f o2] => by destruct (f o2) end.
Qed.

Lemma apply_options_idem (o : ScalarOptions) (vol : number) (a : MediaAttributes) :
  apply_options o vol (apply_options o vol a) = apply_options o vol a.
Proof.
  rewrite !apply_options_fields. cbn.
  f_equal; match goal with |- context [?f o] => by destruct (f o) end.
Qed.

(** X17: runs of the options effect compose.  A run with [o1] followed by a
    run with [o2] leaves every element with the attributes of one run with
    the options merged field by field, later ones first; so running the
    effect again with the same options changes nothing, and so does the
    callback of the watch on [volume] after a run, when the ref has not
    changed.  This holds with and without a bound element. *)
Theorem options_effect_composes (o1 o2 : ScalarOptions) (pg : Page) (l : loc) :
  page_attributes (options_effect o2 (options_effect o1 pg)) l
    = page_attributes (options_effect (later_options o1 o2) pg) l ∧
  page_attributes (options_effect o1 (options_effect o1 pg)) l
    = page_attributes (options_effect o1 pg) l ∧
  page_attributes (volume_cb (nums (page_world pg) volume) (options_effect o1 pg)) l
    = page_attributes (options_effect o1 pg) l ∧
  page_world (options_effect o2 (options_effect o1 pg)) = page_world pg.
Proof.
  unfold options_effect, volume_cb.
  destruct (unref_target (page_world pg)) as [el|] eqn:Hu; cbn [page_world page_attributes];
    rewrite ?Hu; cbn [page_world page_attributes]; [|done].
  destruct (decide (el = l)) as [-> | Hne].
  - rewrite !fn_lookup_insert, apply_options_later, apply_options_idem.
    by repeat split.
  - by rewrite !fn_lookup_insert_ne.
Qed.

(** X18: on a bound element each listener of a boolean ref assigns its ref
    once, with a value fixed by the event type: [seeking], [waiting],
    [stalled], [ended], [play] and [enterpictureinpicture] assign [true];
    [seeked], [playing] (which clears [waiting]), [pause] and
    [leavepictureinpicture] assign [false].  No element is touched. *)
Theorem boolean_listeners_assign_fixed_values
  (r : BoolRef) (type : string) (w : World) (l : loc) (el : HTMLMediaElement) :
  target w = Some l → heap w !! l = Some el →
  type ∈ bool_ref_events r →
  bools (dispatch l type w) r = event_assigns type ∧
  writes_to_bool r (writes (dispatch l type w))
    = writes_to_bool r (writes w) ++ [event_assigns type] ∧
  heap (dispatch l type w) = heap w.
Proof.
  intros Ht Hh Hin. split; [|split; [|apply dispatch_heap]].
  - rewrite (dispatch_bound w l el _ Ht Hh).
    destruct r; cbn [bool_ref_events] in Hin;
      repeat (apply elem_of_cons in Hin as [-> | Hin]);
      try (by apply elem_of_nil in Hin);
      unfold run_listeners; simpl;
      unfold ignorePlayingUpdates, write_playing; simpl;
      rewrite ?andb_false_r; simpl; by rewrite fn_lookup_insert.
  - rewrite (dispatch_bound w l el _ Ht Hh).
    destruct r; cbn [bool_ref_events] in Hin;
      repeat (apply elem_of_cons in Hin as [-> | Hin]);
      try (by apply elem_of_nil in Hin);
      unfold run_listeners; simpl;
      unfold ignorePlayingUpdates, write_playing; simpl;
      rewrite ?andb_false_r; simpl;
      unfold writes_to_bool; rewrite omap_app; done.
Qed.

(** ** Teardown *)

Lemma omap_source_released (ns : list Node) :
  omap (λ n, match n with SourceNode s => Some s | _ => None end) (map release_sources ns)
  = map (removeEventListener "error")
      (omap (λ n, match n with SourceNode s => Some s | _ => None end) ns).
Proof.
  induction ns as [|n ns IH]; [done|].
  destruct n as [s|t|tag ch]; simpl; first [exact IH | f_equal; exact IH].
Qed.

Lemma omap_track_released (ns : list Node) :
  omap (λ n, match n with TrackNode t => Some t | _ => None end) (map release_sources ns)
  = omap (λ n, match n with TrackNode t => Some t | _ => None end) ns.
Proof.
  induction ns as [|n ns IH]; [done|].
  destruct n as [s|t|tag ch]; simpl; first [exact IH | f_equal; exact IH].
Qed.

(** X19: the teardown callback for the sources removes the error listener
    from every source child of the bound element and nothing else: the
    source children stay, in order and with their attributes, the track
    children stay, [load()] is not called, and no ref is assigned.  With no
    element bound it does nothing. *)
Theorem unmounted_sources_releases_listeners (w : World) (l : loc) (el : HTMLMediaElement) :
  target w = Some l → heap w !! l = Some el →
  ∃ el',
    heap (unmounted_sources w) = <[l := el']> (heap w) ∧
    map source_attributes (source_children el') = map source_attributes (source_children el) ∧
    Forall (λ s, "error" ∉ source_listeners s) (source_children el') ∧
    length (el_children el') = length (el_children el) ∧
    track_children el' = track_children el ∧
    el_calls el' = el_calls el ∧
    writes (unmounted_sources w) = writes w ∧
    unmounted_sources (set_target None w) = set_target None w.
Proof.
  intros Ht Hh. unfold unmounted_sources at 1 2.
  rewrite (unref_target_bound w l el Ht Hh).
  rewrite (update_el_insert w l _ el Hh).
  eexists. split; [reflexivity|].
  unfold source_children, track_children. cbn [el_children set_el_children].
  rewrite omap_source_released, omap_track_released.
  split; [by rewrite map_map|]. split.
  { apply Forall_forall. intros s Hs. apply list_elem_of_In in Hs.
    destruct (proj1 (in_map_iff _ _ _) Hs) as (s0 & Heq & _). subst s.
    simpl. intros Hin. apply elem_of_difference in Hin as [_ Hn].
    apply Hn. by apply elem_of_singleton. }
  split; [by rewrite length_map|]. by repeat split.
Qed.

End MediaControls.


(** ** The theorems at sample states *)

(** Numbers are integers and cue lists are trivial in the samples. *)



(** After [currentTime] was written and written back in one tick the flush
    runs nothing and resets nothing: the next [timeupdate], in a tick of its
    own, is then followed by an assignment of [el.currentTime]. *)
Example stale_tick_sample :
  let t7 := tk_start (useMediaControls (CueList := unit) 0%Z 1%Z
                        {[ 0 := sample_element 7%Z ]} (Some 0)) in
  let t' := tk_flush (tk_write_currentTime 0%Z (tk_write_currentTime 5%Z t7)) in
  el_calls <$> heap (tk_world t') !! 0 = Some [] ∧
  ¬ in_sync t' ∧
  el_calls <$> heap (tk_world (tk_flush (tk_dispatch 0 "timeupdate" t'))) !! 0
  = Some [SetCurrentTime 7%Z].
Proof.
  intros t7 t'. split; [by vm_compute|]. split; [|by vm_compute].
  intros [H _]. vm_compute in H. discriminate H.
Qed.

(** A write of the value already held does not reach the element. *)
Example write_currentTime_same_sample :
  let w := sample_bound (CueList := unit) 0%Z 1%Z in
  heap (write_currentTime 0%Z w) = heap w.
Proof. intros w. apply (write_currentTime_same w). Qed.

Lemma disableTrack_zero_disables_every_track_witness :
  let w := sample_bound (number := Z) (CueList := unit) 0%Z 1%Z in
  ∃ w' el',
    disableTrack (Some (TrackNumber 0)) w = (Normal (), w') ∧
    heap w' !! 0 = Some el' ∧
    map tt_mode (el_textTracks el') = [disabled; disabled; disabled] ∧
    selectedTrack w' = (-1)%Z.
Proof.
  intros w.
  destruct (disableTrack_zero_disables_every_track w 0 (sample_element 0%Z))
    as (_ & w' & el' & H1 & H2 & H3 & H4); try reflexivity.
  exists w', el'. rewrite H3. by repeat split.
Defined.

(** An id outside the native list: [enableTrack(5)] first disables every
    track and resets [selectedTrack], then throws at the indexed access. *)
Example enableTrack_out_of_range_sample :
  let w := sample_bound (number := Z) (CueList := unit) 0%Z 1%Z in
  (enableTrack (TrackNumber 5) true w).1 = Throw ∧
  selectedTrack (enableTrack (TrackNumber 5) true w).2 = (-1)%Z ∧
  (map tt_mode ∘ el_textTracks) <$> heap (enableTrack (TrackNumber 5) true w).2 !! 0
  = Some [disabled; disabled; disabled].
Proof. by repeat split. Qed.

(** With a non-zero id the same call disables that track only. *)
Example disableTrack_one_sample :
  let w := sample_bound (number := Z) (CueList := unit) 0%Z 1%Z in
  ∃ w' el',
    disableTrack (Some (TrackNumber 1)) w = (Normal (), w') ∧
    heap w' !! 0 = Some el' ∧
    map tt_mode (el_textTracks el') = [showing; disabled; hidden] ∧
    selectedTrack w' = (-1)%Z.
Proof.
  intros w.
  destruct (disableTrack_truthy (TrackNumber 1) w 0 (sample_element 0%Z)
              (sample_track "FR" "fr" showing))
    as (w' & el' & H1 & H2 & H3 & H4); try reflexivity.
  exists w', el'. rewrite H3. by repeat split.
Qed.

(** The flag [buffering] is still [false] after the element has waited,
    stalled and made progress. *)
Example buffering_stays_false_sample :
  let w := sample_bound (CueList := unit) 0%Z 1%Z in
  bools (run [OpEvent 0 "waiting"; OpEvent 0 "stalled"; OpEvent 0 "progress"] w) buffering
  = false.
Proof. reflexivity. Qed.

Lemma togglePictureInPicture_unsupported_never_settles_witness :
  let w := sample_bound (number := Z) (CueList := unit) 0%Z 1%Z in
  supportsPictureInPicture (Some (mkDocument false)) = false ∧
  promise_after (togglePictureInPicture (Some (mkDocument false)) w)
    [mkSettlement (RequestPictureInPicture 0) true; mkSettlement ExitPictureInPicture false]
  = Pending.
Proof.
  intros w. split; [reflexivity|].
  apply (togglePictureInPicture_unsupported_never_settles (Some (mkDocument false)) w).
  reflexivity.
Defined.

Lemma togglePictureInPicture_unbound_never_settles_witness :
  let w := sample_unbound (number := Z) (CueList := unit) 0%Z 1%Z in
  supportsPictureInPicture (Some (mkDocument true)) = true ∧
  promise_after (togglePictureInPicture (Some (mkDocument true)) w)
    [mkSettlement (RequestPictureInPicture 0) true; mkSettlement ExitPictureInPicture false]
  = Pending.
Proof.
  intros w. split; [reflexivity|].
  apply (togglePictureInPicture_unbound_never_settles (Some (mkDocument true)) w).
  reflexivity.
Defined.

(** The empty string is a string, it is the default of [src], and it is
    falsy: the run leaves the old source child in place, creates none for the
    url [""] and does not call [load()]. *)
Lemma source_effect_empty_string_counterexample :
  let w := sample_bound (number := Z) (CueList := unit) 0%Z 1%Z in
  ∃ el',
    heap (source_effect (Some (mkDocument true)) (SrcString "") w) !! 0 = Some el' ∧
    map source_url_type (source_children el') = [(Some "old.mp4", None)] ∧
    map source_url_type (source_children el') ≠ [(Some "", Some "")] ∧
    el_calls el' = [].
Proof.
  intros w. exists (sample_element 0%Z).
  split; [reflexivity|]. split; [reflexivity|]. split; [|reflexivity].
  intros H. vm_compute in H. discriminate H.
Qed.

Lemma source_effect_truthy_src_witness :
  let w := sample_bound (number := Z) (CueList := unit) 0%Z 1%Z in
  (∃ el',
     heap (source_effect (Some (mkDocument true)) (SrcArray sample_sources) w) !! 0 = Some el' ∧
     map source_url_type (source_children el')
       = [(Some "a.mp4", Some "video/mp4"); (Some "a.ogv", Some "video/ogg")] ∧
     el_calls el' = [Load]) ∧
  (∃ el',
     heap (source_effect (Some (mkDocument true)) (SrcString "a.mp4") w) !! 0 = Some el' ∧
     map source_url_type (source_children el') = [(Some "a.mp4", Some "")] ∧
     el_calls el' = [Load]).
Proof.
  intros w. split.
  - destruct (source_effect_truthy_src (mkDocument true) (SrcArray sample_sources) w 0
                (sample_element 0%Z))
      as (el' & H1 & H2 & _ & H3 & _); try reflexivity.
    exists el'. split; [exact H1|]. split; [exact H2|exact H3].
  - destruct (source_effect_truthy_src (mkDocument true) (SrcString "a.mp4") w 0
                (sample_element 0%Z))
      as (el' & H1 & _ & _ & H3 & H4); try reflexivity.
    exists el'. split; [exact H1|]. split; [exact H4|exact H3].
Defined.

Lemma source_effect_falsy_src_untouched_witness :
  let w := sample_bound (number := Z) (CueList := unit) 0%Z 1%Z in
  source_effect (Some (mkDocument true)) (SrcString "") w = w ∧
  source_effect (Some (mkDocument true)) SrcUndefined w = w.
Proof.
  intros w. split.
  - apply (source_effect_falsy_src_untouched (Some (mkDocument true)) (SrcString "") w).
    reflexivity.
  - apply (source_effect_falsy_src_untouched (Some (mkDocument true)) SrcUndefined w).
    reflexivity.
Defined.

Lemma track_effect_appends_and_selects_witness :
  let w := sample_bound (number := Z) (CueList := unit) 0%Z 1%Z in
  ∃ el',
    heap (track_effect (Some (mkDocument true)) (Some sample_tracks) w) !! 0 = Some el' ∧
    track_children el'
      = [ mkTrack false subtitles "EN" "en.vtt" "en"; mkTrack true subtitles "FR" "fr.vtt" "fr" ] ∧
    writes (track_effect (Some (mkDocument true)) (Some sample_tracks) w) = [WSelectedTrack 1] ∧
    selectedTrack (track_effect (Some (mkDocument true)) (Some sample_tracks) w) = 1%Z.
Proof.
  intros w.
  destruct (track_effect_appends_and_selects (mkDocument true) sample_tracks w 0
              (sample_element 0%Z))
    as (el' & H1 & _ & H2 & _ & H3 & H4); try reflexivity.
  exists el'. split; [exact H1|]. split; [exact H2|]. split; [exact H3|exact H4].
Defined.

Lemma enableTrack_0_then_1_then_disableTrack_witness :
  let w := sample_bound (number := Z) (CueList := unit) 0%Z 1%Z in
  ∃ w1 w2 w3 el2 el3,
    enableTrack (TrackNumber 0) true w = (Normal (), w1) ∧
    enableTrack (TrackNumber 1) true w1 = (Normal (), w2) ∧
    heap w2 !! 0 = Some el2 ∧
    map tt_mode (el_textTracks el2) = [disabled; showing; disabled] ∧
    selectedTrack w2 = 1%Z ∧
    disableTrack None w2 = (Normal (), w3) ∧
    heap w3 !! 0 = Some el3 ∧
    map tt_mode (el_textTracks el3) = [disabled; disabled; disabled] ∧
    selectedTrack w3 = (-1)%Z.
Proof.
  intros w.
  destruct (enableTrack_0_then_1_then_disableTrack w 0 (sample_element 0%Z))
    as (w1 & w2 & w3 & _ & el2 & el3 & _ & H1 & H2 & H3 & H4 & H5 & H6 & H7 & H8 & H9 & _);
    try reflexivity.
  { simpl. lia. }
  exists w1, w2, w3, el2, el3. by repeat split.
Defined.

Lemma tracks_rebuilt_with_index_ids_witness :
  let w := target_cb (sample_bound (number := Z) (CueList := unit) 0%Z 1%Z) in
  listeners w = Some 0 ∧
  map umt_id (tracks (dispatch_textTracks 0 "change" w)) = [0%Z; 1%Z; 2%Z] ∧
  map umt_label (tracks (dispatch_textTracks 0 "change" w)) = ["EN"; "FR"; "DE"].
Proof.
  intros w. split; [reflexivity|].
  destruct (tracks_rebuilt_with_index_ids 0 (sample_element 0%Z) "change" w)
    as (H1 & _ & H2 & _); try reflexivity.
  { right. right. reflexivity. }
  split; [exact H2|]. rewrite H1. reflexivity.
Defined.

(** ** The further properties at sample states *)

Lemma enableTrack_shows_only_that_track_witness :
  let w := sample_bound (number := Z) (CueList := unit) 0%Z 1%Z in
  let de := mkUseMediaTextTrack 2 "DE" "de" hidden subtitles "" None None in
  ∃ w' el',
    enableTrack (TrackObject de) true w = (Normal (), w') ∧
    heap w' !! 0 = Some el' ∧
    map tt_mode (el_textTracks el') = [disabled; disabled; showing] ∧
    selectedTrack w' = 2%Z.
Proof.
  intros w de.
  destruct (enableTrack_shows_only_that_track (TrackObject de) w 0 (sample_element 0%Z)
              (sample_track "DE" "de" hidden))
    as (w' & el' & H1 & H2 & _ & H3 & _ & _ & H4); try reflexivity.
  exists w', el'. rewrite H2, H3. by repeat split.
Defined.

Lemma enableTrack_keeping_others_witness :
  let w := sample_bound (number := Z) (CueList := unit) 0%Z 1%Z in
  ∃ w' el',
    enableTrack (TrackNumber 2) false w = (Normal (), w') ∧
    heap w' !! 0 = Some el' ∧
    map tt_mode (el_textTracks el') = [showing; showing; showing] ∧
    selectedTrack w' = 2%Z.
Proof.
  intros w.
  destruct (enableTrack_keeping_others (TrackNumber 2) w 0 (sample_element 0%Z)
              (sample_track "DE" "de" hidden))
    as (w' & el' & H1 & H2 & _ & H3 & H4 & _); try reflexivity.
  exists w', el'. rewrite H2, H3. by repeat split.
Defined.

Lemma disableTrack_disables_only_that_track_witness :
  let w := sample_bound (number := Z) (CueList := unit) 0%Z 1%Z in
  let en := mkUseMediaTextTrack 0 "EN" "en" showing subtitles "" None None in
  ∃ w' el',
    disableTrack (Some (TrackObject en)) w = (Normal (), w') ∧
    heap w' !! 0 = Some el' ∧
    map tt_mode (el_textTracks el') = [disabled; showing; hidden] ∧
    selectedTrack w' = (-1)%Z.
Proof.
  intros w en.
  destruct (disableTrack_disables_only_that_track (TrackObject en) w 0 (sample_element 0%Z)
              (sample_track "EN" "en" showing))
    as (w' & el' & H1 & H2 & _ & H3 & H4); try reflexivity.
  exists w', el'. rewrite H2, H3. by repeat split.
Defined.

Lemma track_operations_missing_track_witness :
  let w := sample_bound (number := Z) (CueList := unit) 0%Z 1%Z in
  enableTrack (TrackNumber 7) false w = (Throw, w) ∧
  disableTrack (Some (TrackNumber 7)) w = (Throw, w) ∧
  ∃ w' el',
    enableTrack (TrackNumber 7) true w = (Throw, w') ∧
    heap w' !! 0 = Some el' ∧
    map tt_mode (el_textTracks el') = [disabled; disabled; disabled] ∧
    selectedTrack w' = (-1)%Z.
Proof.
  intros w.
  destruct (track_operations_missing_track (TrackNumber 7) w 0 (sample_element 0%Z))
    as (H1 & H2 & w' & el' & H3 & H4 & H5 & H6); try reflexivity.
  split; [exact H1|]. split; [exact H2|].
  exists w', el'. rewrite H4, H5. by repeat split.
Defined.

Lemma unbound_controller_is_inert_witness :
  let w := sample_unbound (number := Z) (CueList := unit) 0%Z 1%Z in
  step w (OpSourceEffect (Some (mkDocument true)) (SrcArray sample_sources)) = w ∧
  enableTrack (TrackNumber 0) true w = (Normal (), w).
Proof.
  intros w. split.
  - exact (proj2 (unbound_controller_is_inert
      (OpSourceEffect (Some (mkDocument true)) (SrcArray sample_sources)) w eq_refl)).
  - exact (proj2 (unbound_controller_is_inert (OpEnableTrack (TrackNumber 0) true) w eq_refl)).
Defined.

Lemma boolean_refs_have_their_own_writers_witness :
  let w := sample_bound (number := Z) (CueList := unit) 0%Z 1%Z in
  let ops := [OpEvent 0 "seeked"; OpEvent 0 "waiting"; OpEnableTrack (TrackNumber 1) true;
              OpWritePlaying true; OpSourceEffect (Some (mkDocument true)) (SrcString "a.mp4")] in
  bools (run ops w) ended = bools w ended ∧
  writes_to_bool ended (writes (run ops w)) = [].
Proof.
  intros w ops.
  exact (boolean_refs_have_their_own_writers ops ended w eq_refl).
Defined.

Lemma ended_and_stalled_are_never_reset_witness :
  let w := dispatch 0 "ended" (sample_bound (number := Z) (CueList := unit) 0%Z 1%Z) in
  bools w ended = true ∧
  bools (run [OpWritePlaying true; OpEvent 0 "play"; OpEvent 0 "playing";
              OpEvent 0 "timeupdate"; OpWriteCurrentTime 0%Z] w) ended = true.
Proof.
  intros w. split; [reflexivity|].
  apply (ended_and_stalled_are_never_reset ended); [by left|reflexivity].
Defined.

Lemma element_values_are_copied_witness :
  let el := mkElement (CueList := unit) 3%Z 120%Z 2%Z [(0%Z, 10%Z); (20%Z, 30%Z)] [] [] [] in
  let w := useMediaControls 0%Z 1%Z {[ 0 := el ]} (Some 0) in
  timeRangeToArray [(0%Z, 10%Z); (20%Z, 30%Z)] = [(0%Z, 10%Z); (20%Z, 30%Z)] ∧
  buffered (dispatch 0 "progress" w) = [(0%Z, 10%Z); (20%Z, 30%Z)] ∧
  nums (dispatch 0 "durationchange" w) duration = 120%Z ∧
  nums (dispatch 0 "ratechange" w) rate = 2%Z.
Proof.
  intros el w.
  destruct (element_values_are_copied w 0 el [(0%Z, 10%Z); (20%Z, 30%Z)])
    as (H1 & H2 & _ & H3 & _ & H4 & _); try reflexivity.
  by repeat split.
Defined.


Lemma track_list_listeners_registration_witness :
  let w := useMediaControls (CueList := unit) 0%Z 1%Z
             {[ 0 := sample_element 0%Z; 1 := sample_element 0%Z ]} (Some 0) in
  let steps := [OpEvent 0 "play"; OpTextTracksEvent 0 "addtrack";
                OpEnableTrack (TrackNumber 1) true] in
  let turns := [TurnRebind [Some 0]; TurnStep OpTargetCb; TurnRebind [None];
                TurnRebind [Some 0; Some 1; Some 0]] in
  listeners (run steps w) = None ∧
  listeners (rebind_tick [None; Some 0; Some 1] (run steps w)) = Some 1 ∧
  listeners (live turns (rebind_tick [None; Some 0; Some 1] (run steps w))) = Some 1 ∧
  dispatch_textTracks 0 "change" (live turns (rebind_tick [None; Some 0; Some 1] (run steps w)))
    = live turns (rebind_tick [None; Some 0; Some 1] (run steps w)).
Proof.
  intros w steps turns.
  destruct (track_list_listeners_registration w steps [None; Some 0; Some 1] 1 0
              (sample_element 0%Z) turns "change")
    as (H1 & H2 & _ & H3 & _ & H4);
    [reflexivity|reflexivity|reflexivity|discriminate|vm_compute; reflexivity|discriminate|].
  split; [exact H1|]. split; [exact H2|]. split; [exact H3|exact H4].
Defined.

Lemma source_effect_rerun_witness :
  let w := sample_bound (number := Z) (CueList := unit) 0%Z 1%Z in
  let once := source_effect (Some (mkDocument true)) (SrcString "a.mp4") w in
  let twice := source_effect (Some (mkDocument true)) (SrcString "a.mp4") once in
  ∃ el1 el2,
    heap once !! 0 = Some el1 ∧ heap twice !! 0 = Some el2 ∧
    el_children el1
      = [ TrackNode (mkTrack true captions "old" "old.vtt" "en");
          ElementNode "p" [];
          SourceNode (new_source (mkUseMediaSource "a.mp4" None)) ] ∧
    el_children el2 = el_children el1 ∧
    el_calls el2 = [Load; Load].
Proof.
  intros w once twice.
  destruct (source_effect_rerun (mkDocument true) (SrcString "a.mp4") w 0 (sample_element 0%Z))
    as (el1 & el2 & H1 & H2 & H3 & _ & H4 & _ & H5); try reflexivity.
  exists el1, el2. split; [exact H1|]. split; [exact H2|].
  split; [exact H3|]. split; [exact H4|exact H5].
Defined.

Lemma empty_lists_and_defaults_witness :
  let w := sample_bound (number := Z) (CueList := unit) 0%Z 1%Z in
  track_effect (Some (mkDocument true)) (Some []) w = w ∧
  ∃ el',
    heap (source_effect (Some (mkDocument true)) (SrcArray []) w) !! 0 = Some el' ∧
    source_children el' = [] ∧
    track_children el' = [mkTrack true captions "old" "old.vtt" "en"] ∧
    el_calls el' = [Load].
Proof.
  intros w.
  destruct (empty_lists_and_defaults (Some (mkDocument true)) (mkDocument true) w 0
              (sample_element 0%Z))
    as (H1 & _ & _ & _ & el' & H2 & _ & H3 & H4 & H5); try reflexivity.
  split; [exact H1|]. exists el'. by repeat split.
Defined.

Lemma effects_are_independent_witness :
  let w := sample_bound (number := Z) (CueList := unit) 0%Z 1%Z in
  (∃ el1,
     heap (source_effect (Some (mkDocument true)) (SrcArray sample_sources) w) !! 0 = Some el1 ∧
     track_children el1 = [mkTrack true captions "old" "old.vtt" "en"] ∧
     selectedTrack (source_effect (Some (mkDocument true)) (SrcArray sample_sources) w)
       = (-1)%Z) ∧
  (∃ el2,
     heap (track_effect (Some (mkDocument true)) (Some sample_tracks) w) !! 0 = Some el2 ∧
     map source_url_type (source_children el2) = [(Some "old.mp4", None)] ∧
     el_calls el2 = []).
Proof.
  intros w.
  destruct (effects_are_independent (mkDocument true) (SrcArray sample_sources) sample_tracks
              w 0 (sample_element 0%Z))
    as ((el1 & H1 & H2 & _ & H3) & (el2 & H4 & H5 & H6 & _)); try reflexivity.
  split.
  - exists el1. by repeat split.
  - exists el2. rewrite H5. by repeat split.
Defined.

Lemma track_effect_rerun_witness :
  let w := sample_bound (number := Z) (CueList := unit) 0%Z 1%Z in
  let once := track_effect (Some (mkDocument true)) (Some sample_tracks) w in
  let twice := track_effect (Some (mkDocument true)) (Some sample_tracks) once in
  ∃ el1 el2,
    heap once !! 0 = Some el1 ∧ heap twice !! 0 = Some el2 ∧
    el_children el2 = el_children el1 ∧
    track_children el1
      = [ mkTrack false subtitles "EN" "en.vtt" "en"; mkTrack true subtitles "FR" "fr.vtt" "fr" ] ∧
    selectedTrack twice = 1%Z.
Proof.
  intros w once twice.
  destruct (track_effect_rerun (mkDocument true)
              (mkUseMediaTextTrackSource (Some false) subtitles "EN" "en.vtt" "en")
              [mkUseMediaTextTrackSource (Some true) subtitles "FR" "fr.vtt" "fr"]
              w 0 (sample_element 0%Z))
    as (el1 & el2 & H1 & H2 & H3 & _ & H4 & H5); try reflexivity.
  exists el1, el2. split; [exact H1|]. split; [exact H2|]. split; [exact H4|].
  split; [unfold track_children; by rewrite H3|].
  change (selectedTrack twice = selectedTrack once) in H5. by rewrite H5.
Defined.

Lemma tracks_ref_follows_enableTrack_witness :
  let w := target_cb (sample_bound (number := Z) (CueList := unit) 0%Z 1%Z) in
  let w' := dispatch_textTracks 0 "change" (enableTrack (TrackNumber 1) true w).2 in
  map umt_mode (tracks w') = [disabled; showing; disabled] ∧
  map umt_id (tracks w') = [0%Z; 1%Z; 2%Z] ∧
  selectedTrack w' = 1%Z.
Proof.
  intros w w'.
  destruct (tracks_ref_follows_enableTrack (TrackNumber 1) w 0 (sample_element 0%Z)
              (sample_track "FR" "fr" showing))
    as (H1 & H2 & H3 & _); try reflexivity.
  split; [exact H1|]. split; [exact H2|exact H3].
Defined.

Lemma options_effect_field_by_field_witness :
  let pg := mkPage (sample_bound (number := Z) (CueList := unit) 0%Z 1%Z)
              (λ _, mkAttributes false true false "auto" false "" false false 5%Z) in
  let o := mkScalarOptions (Some true) None (Some true) (Some preload_none) None
             (Some "poster.png") None None in
  page_attributes (options_effect o pg) 0
    = mkAttributes true true true "none" false "poster.png" false false 1%Z ∧
  page_attributes (options_effect o pg) 1 = page_attributes pg 1.
Proof.
  intros pg o.
  destruct (options_effect_field_by_field o pg 0 (sample_element 0%Z))
    as (_ & H1 & H2); try reflexivity.
  split; [exact H2|]. apply H1. lia.
Defined.

Lemma boolean_listeners_assign_fixed_values_witness :
  let w := sample_bound (number := Z) (CueList := unit) 0%Z 1%Z in
  bools (dispatch 0 "waiting" w) waiting = true ∧
  bools (dispatch 0 "playing" (dispatch 0 "waiting" w)) waiting = false.
Proof.
  intros w. split.
  - apply (boolean_listeners_assign_fixed_values waiting "waiting" w 0 (sample_element 0%Z));
      [reflexivity|reflexivity|set_solver].
  - apply (boolean_listeners_assign_fixed_values waiting "playing" (dispatch 0 "waiting" w) 0
             (sample_element 0%Z)); [reflexivity|reflexivity|set_solver].
Defined.

Lemma unmounted_sources_releases_listeners_witness :
  let w := source_effect (Some (mkDocument true)) (SrcArray sample_sources)
             (sample_bound (number := Z) (CueList := unit) 0%Z 1%Z) in
  ∃ el',
    heap (unmounted_sources w) !! 0 = Some el' ∧
    Forall (λ s, "error" ∉ source_listeners s) (source_children el') ∧
    length (el_children el') = 4 ∧
    el_calls el' = [Load] ∧
    writes (unmounted_sources w) = [].
Proof.
  intros w.
  assert (Hel : ∃ el, heap w !! 0 = Some el ∧ length (el_children el) = 4 ∧
                      el_calls el = [Load]).
  { eexists. split; [reflexivity|]. split; reflexivity. }
  destruct Hel as (el & Hh & Hlen & Hcalls).
  destruct (unmounted_sources_releases_listeners w 0 el)
    as (el' & H1 & _ & H2 & H3 & _ & H4 & H5 & _); [reflexivity|exact Hh|].
  exists el'. split; [rewrite H1; apply lookup_insert_eq|].
  split; [exact H2|]. split; [by rewrite H3|]. split; [by rewrite H4|exact H5].
Defined.
